(** * Price targets and position sizing (utils.py)

    A shallow embedding of the four calculations of [utils.py] and of the
    decimal arithmetic they run on, followed by the properties of the
    specification.

    The module computes with Python's [Decimal] under the context that
    line 10 of the source installs, [getcontext().prec = 50]: every
    arithmetic result is rounded to 50 significant digits, ties to even
    (the context's default rounding).  A [Decimal] here is a finite
    number, a sign, a coefficient and an exponent; the constructor keeps
    every digit it is given and only operations round.  Infinities, NaNs
    and the context's exponent limits (|exponent| beyond 999999) are
    outside the model.

    The percentage arguments are Python floats that the module only reads
    through [Decimal(str(p))]; the calculations take them as that decimal,
    and [Decimal_of_float] gives it for a binary64 number. *)

From Stdlib Require Import ZArith QArith Qpower Qround Lia Bool List String Ascii.
Import ListNotations.

Local Open Scope Z_scope.

(** ** Exceptions and results *)

Inductive exn : Type :=
| ValueError (msg : string)
| KeyError (key : string)
| TypeError
| InvalidOperation
| DivisionByZero.

(** What a call does: it returns, or it raises.  [NonFiniteValue] marks a
    computation that goes on with an infinity or a NaN, where the model
    stops following it. *)
Inductive result (A : Type) : Type :=
| Return (a : A)
| Raise (e : exn)
| NonFiniteValue.

Arguments Return {A} a.
Arguments Raise {A} e.
Arguments NonFiniteValue {A}.

Definition bind {A B : Type} (m : result A) (k : A -> result B) : result B :=
  match m with
  | Return a => k a
  | Raise e => Raise e
  | NonFiniteValue => NonFiniteValue
  end.

Notation "x <- m ;; k" := (bind m (fun x => k))
  (at level 61, m at next level, right associativity).

(** ** Decimal arithmetic at 50 digits *)

Module Dec.

(** [getcontext().prec = 50] *)
Definition prec : Z := 50.

(** sign (true for negative), coefficient (non-negative), exponent:
    the number (-1)^sign * coef * 10^expo. *)
Record Decimal : Type := mk { sign : bool; coef : Z; expo : Z }.

Definition wf (x : Decimal) : Prop := 0 <= coef x.

(** the signed coefficient *)
Definition sval (x : Decimal) : Z := if sign x then - coef x else coef x.

(** Number of decimal digits of a non-negative integer, [len(str(n))]. *)
Fixpoint ndigits_aux (fuel : nat) (n : Z) : Z :=
  match fuel with
  | O => 1
  | S f => if n <? 10 then 1 else 1 + ndigits_aux f (n / 10)
  end.

Definition ndigits (n : Z) : Z := ndigits_aux (Z.to_nat (Z.log2 n)) n.

(** Drop the last [d] digits of [c], rounding half to even. *)
Definition round_half_even (c d : Z) : Z :=
  let p := 10 ^ d in
  let q := c / p in
  let r := c mod p in
  if (2 * r >? p) || ((2 * r =? p) && Z.odd q) then q + 1 else q.

(** [Decimal._fix]: round to the context's precision. *)
Definition dfix (x : Decimal) : Decimal :=
  let n := ndigits (coef x) in
  if (coef x =? 0) || (n <=? prec) then x
  else
    let d := n - prec in
    let c := round_half_even (coef x) d in
    if ndigits c >? prec
    then mk (sign x) (c / 10) (expo x + d + 1)
    else mk (sign x) c (expo x + d).

(** [Decimal(str(n))] for a Python int. *)
Definition of_int (n : Z) : Decimal := mk (n <? 0) (Z.abs n) 0.

(** [a * b] *)
Definition mul (a b : Decimal) : Decimal :=
  dfix (mk (xorb (sign a) (sign b)) (coef a * coef b) (expo a + expo b)).

(** [a + b]: the exact sum at the smaller exponent, then rounded.  The
    sign of a zero sum is negative only when both operands are negative. *)
Definition add (a b : Decimal) : Decimal :=
  let e := Z.min (expo a) (expo b) in
  let z := sval a * 10 ^ (expo a - e) + sval b * 10 ^ (expo b - e) in
  dfix (mk (if z =? 0 then sign a && sign b else z <? 0) (Z.abs z) e).

Definition neg (a : Decimal) : Decimal := mk (negb (sign a)) (coef a) (expo a).

(** [a - b] *)
Definition sub (a b : Decimal) : Decimal := add a (neg b).

(** Remove trailing zeros from [c] while the exponent is below [ideal]. *)
Fixpoint strip_zeros (fuel : nat) (c e ideal : Z) : Z * Z :=
  match fuel with
  | O => (c, e)
  | S f =>
      if (e <? ideal) && (c mod 10 =? 0)
      then strip_zeros f (c / 10) (e + 1) ideal
      else (c, e)
  end.

(** [a / b] ([Decimal.__truediv__]) *)
Definition div (a b : Decimal) : result Decimal :=
  let s := xorb (sign a) (sign b) in
  if coef b =? 0 then
    if coef a =? 0 then Raise InvalidOperation else Raise DivisionByZero
  else if coef a =? 0 then
    Return (dfix (mk s 0 (expo a - expo b)))
  else
    let shift := ndigits (coef b) - ndigits (coef a) + prec + 1 in
    let e := expo a - expo b - shift in
    let num := if 0 <=? shift then coef a * 10 ^ shift else coef a in
    let den := if 0 <=? shift then coef b else coef b * 10 ^ (- shift) in
    let q := num / den in
    let r := num mod den in
    let '(c, e') :=
      if r =? 0
      then strip_zeros (Z.to_nat (expo a - expo b - e)) q e (expo a - expo b)
      else (if q mod 5 =? 0 then q + 1 else q, e) in
    Return (dfix (mk s c e')).

(** Numeric comparison. *)
Definition cmp (a b : Decimal) : comparison :=
  let e := Z.min (expo a) (expo b) in
  (sval a * 10 ^ (expo a - e)) ?= (sval b * 10 ^ (expo b - e)).

Definition ltb (a b : Decimal) : bool :=
  match cmp a b with Lt => true | _ => false end.
Definition leb (a b : Decimal) : bool :=
  match cmp a b with Gt => false | _ => true end.
Definition eqb (a b : Decimal) : bool :=
  match cmp a b with Eq => true | _ => false end.

(** [Decimal('0')] *)
Definition zero : Decimal := mk false 0 0.

(** The builtin [max(x, Decimal('0'))]: the second argument is taken only
    when it is strictly greater than the first. *)
Definition max0 (x : Decimal) : Decimal := if ltb x zero then zero else x.

(** The rational a [Decimal] denotes. *)
Definition value (x : Decimal) : Q :=
  if 0 <=? expo x
  then inject_Z (sval x * 10 ^ expo x)
  else Qmake (sval x) (Z.to_pos (10 ^ (- expo x))).

End Dec.

Import Dec.

(** ** Python values reaching the module *)

(** Modelled from the spec: [PositionDirection] is imported from
    [database.models], which is not part of the sources at hand.  The spec
    gives it exactly two members, LONG and SHORT; [Unrecognized] stands for
    any other object a caller passes as the direction. *)
Inductive PositionDirection : Type := LONG | SHORT | Unrecognized.

(** The values an analysis record may hold under a key. *)
Inductive pyval : Type :=
| PyNone
| PyInt (n : Z)
| PyStr (s : string)
| PyDecimal (d : Decimal)
| PyObject.  (* an object of a type [Decimal()] does not accept *)

(** *** Reading a numeral: [Decimal(str)] *)

Local Open Scope char_scope.

Definition is_space (a : ascii) : bool :=
  let n := nat_of_ascii a in
  ((9 <=? n) && (n <=? 13) || (28 <=? n) && (n <=? 32))%nat.

Definition is_digit (a : ascii) : bool :=
  let n := nat_of_ascii a in ((48 <=? n) && (n <=? 57))%nat.

Definition lower (a : ascii) : ascii :=
  let n := nat_of_ascii a in
  if ((65 <=? n) && (n <=? 90))%nat then ascii_of_nat (n + 32) else a.

Fixpoint lstrip (l : list ascii) : list ascii :=
  match l with
  | a :: t => if is_space a then lstrip t else l
  | [] => []
  end.

Definition strip (l : list ascii) : list ascii := rev (lstrip (rev (lstrip l))).

Definition remove_underscores (l : list ascii) : list ascii :=
  filter (fun a => negb (Ascii.eqb a "_")) l.

Fixpoint span_digits (l : list ascii) : list ascii * list ascii :=
  match l with
  | a :: t =>
      if is_digit a
      then let (ds, r) := span_digits t in (a :: ds, r)
      else ([], l)
  | [] => ([], [])
  end.

Definition int_of_digits (ds : list ascii) : Z :=
  fold_left (fun acc a => 10 * acc + (Z.of_nat (nat_of_ascii a) - 48))%Z ds 0%Z.

Definition split_sign (l : list ascii) : bool * list ascii :=
  match l with
  | "-" :: r => (true, r)
  | "+" :: r => (false, r)
  | _ => (false, l)
  end.

(** the exponent part, [(E[-+]?\d+)?] up to the end of the string *)
Definition parse_exponent (l : list ascii) : option Z :=
  match l with
  | [] => Some 0%Z
  | c :: t =>
      if Ascii.eqb (lower c) "e" then
        let (sg, t') := split_sign t in
        let (ds, r) := span_digits t' in
        match ds, r with
        | _ :: _, [] => Some (if sg then - int_of_digits ds else int_of_digits ds)%Z
        | _, _ => None
        end
      else None
  end.

(** [Inf], [Infinity], [NaN] and [sNaN] with an optional payload *)
Definition is_special (l : list ascii) : bool :=
  match l with
  | ["i"; "n"; "f"] => true
  | ["i"; "n"; "f"; "i"; "n"; "i"; "t"; "y"] => true
  | "n" :: "a" :: "n" :: r => forallb is_digit r
  | "s" :: "n" :: "a" :: "n" :: r => forallb is_digit r
  | _ => false
  end.

Inductive parsed : Type :=
| Finite (d : Decimal)
| NonFinite
| Malformed.

(** The constructor's grammar, applied to [value.strip().replace('_', '')]:
    an optional sign, then digits with an optional fraction (at least one
    digit in all) and an optional exponent, or the spelling of an infinity
    or a NaN.  The coefficient is [int(intpart + fracpart)] and the
    exponent [exp - len(fracpart)]. *)
Definition parse (s : string) : parsed :=
  let l := remove_underscores (strip (list_ascii_of_string s)) in
  let (sg, body) := split_sign l in
  if is_special (map lower body) then NonFinite
  else
    let (ip, r1) := span_digits body in
    let (fp, r2) := match r1 with
                    | "." :: r => span_digits r
                    | _ => ([], r1)
                    end in
    match ip ++ fp with
    | [] => Malformed
    | ds =>
        match parse_exponent r2 with
        | Some e => Finite (mk sg (int_of_digits ds) (e - Z.of_nat (List.length fp)))
        | None => Malformed
        end
    end.

Local Close Scope char_scope.
Local Open Scope string_scope.
Local Open Scope Z_scope.

(** [Decimal(v)].  A string spelling an infinity or a NaN converts, to a
    value this model has no arithmetic for. *)
Definition Decimal_new (v : pyval) : result Decimal :=
  match v with
  | PyNone => Raise TypeError
  | PyObject => Raise TypeError
  | PyInt n => Return (of_int n)
  | PyDecimal d => Return d
  | PyStr s =>
      match parse s with
      | Finite d => Return d
      | NonFinite => NonFiniteValue
      | Malformed => Raise InvalidOperation
      end
  end.

(** The literals of the source. *)
Definition D0 : Decimal := mk false 0 0.
Definition D2 : Decimal := mk false 2 0.
Definition D100 : Decimal := mk false 100 0.
Definition D1_5 : Decimal := mk false 15 (-1).
Definition D2_0 : Decimal := mk false 20 (-1).


(** A Python dict with string keys. *)
Definition dict : Type := list (string * pyval).

Fixpoint getitem (d : dict) (k : string) : result pyval :=
  match d with
  | [] => Raise (KeyError k)
  | (k', v) :: t => if String.eqb k k' then Return v else getitem t k
  end.

(** ** The four calculations *)

(** The dictionary [calculate_percentage_based_prices] returns, by key. *)
Record PercentagePrices : Type :=
  { tp1_price : Decimal; sl_price : Decimal; tp2_price : Decimal }.

(** The dictionary [calculate_atr_swing_prices] returns, by key. *)
Record AtrPrices : Type :=
  { tp_price : Decimal; atr_sl_price : Decimal }.

(** A percentage argument is a Python float (or int), used only through
    [Decimal(str(p))]: it is given here as that decimal, the shortest
    numeral that prints the float.  [None] is an omitted [tp2_percentage]. *)
Definition truthy_and_positive (p : option Decimal) : bool :=
  match p with
  | Some t => negb (coef t =? 0) && ltb zero t
  | None => false
  end.

(** Lines 26-59: the three prices before the final clamp. *)
Definition percentage_based_prices_unclamped
    (entry_price : Decimal) (direction : PositionDirection) (leverage : Z)
    (tp1_percentage sl_percentage : Decimal) (tp2_percentage : option Decimal)
    : result PercentagePrices :=
  if leverage <=? 0 then Raise (ValueError "Leverage must be a positive number.")
  else
    tp1_decimal_factor <- div tp1_percentage D100 ;;
    sl_decimal_factor <- div sl_percentage D100 ;;
    tp2_decimal_factor <-
      (if truthy_and_positive tp2_percentage
       then match tp2_percentage with
            | Some t => div t D100
            | None => Return (mul tp1_decimal_factor D2)
            end
       else Return (mul tp1_decimal_factor D2)) ;;
    price_change_factor_tp1 <- div tp1_decimal_factor (of_int leverage) ;;
    price_change_factor_sl <- div sl_decimal_factor (of_int leverage) ;;
    price_change_factor_tp2 <- div tp2_decimal_factor (of_int leverage) ;;
    let price_change_tp1 := mul entry_price price_change_factor_tp1 in
    let price_change_sl := mul entry_price price_change_factor_sl in
    let price_change_tp2 := mul entry_price price_change_factor_tp2 in
    match direction with
    | LONG =>
        Return {| tp1_price := add entry_price price_change_tp1;
                  sl_price := sub entry_price price_change_sl;
                  tp2_price := add entry_price price_change_tp2 |}
    | SHORT =>
        Return {| tp1_price := sub entry_price price_change_tp1;
                  sl_price := add entry_price price_change_sl;
                  tp2_price := sub entry_price price_change_tp2 |}
    | Unrecognized =>
        Raise (ValueError "Invalid position direction provided")
    end.

Definition calculate_percentage_based_prices
    (entry_price : Decimal) (direction : PositionDirection) (leverage : Z)
    (tp1_percentage sl_percentage : Decimal) (tp2_percentage : option Decimal)
    : result PercentagePrices :=
  p <- percentage_based_prices_unclamped entry_price direction leverage
         tp1_percentage sl_percentage tp2_percentage ;;
  Return {| tp1_price := max0 (tp1_price p);
            sl_price := max0 (sl_price p);
            tp2_price := max0 (tp2_price p) |}.

Definition calculate_position_size_usdt (risk_amount : Decimal) (leverage : Z)
    : result Decimal :=
  if leverage <=? 0 then Raise (ValueError "Leverage must be a positive number.")
  else if ltb risk_amount (of_int 0) then
    Raise (ValueError "Risk amount cannot be negative.")
  else Return (mul risk_amount (of_int leverage)).

Definition calculate_quantity_from_usdt (position_size_usdt price : Decimal)
    : result Decimal :=
  if leb price (of_int 0) then
    Raise (ValueError "Price must be greater than zero for quantity calculation.")
  else div position_size_usdt price.

(** A line written by [logging.error]: the exception it reports. *)
Inductive log_line : Type :=
| LogError (e : exn).

(** [Decimal(analysis_data[key])] *)
Definition read_field (analysis_data : dict) (key : string) : result Decimal :=
  v <- getitem analysis_data key ;; Decimal_new v.

(** Lines 99-101, the body of the [try]. *)
Definition read_analysis (analysis_data : dict)
    : result (Decimal * Decimal * Decimal) :=
  atr <- read_field analysis_data "atr" ;;
  swing_high <- read_field analysis_data "swingHigh" ;;
  swing_low <- read_field analysis_data "swingLow" ;;
  Return (atr, swing_high, swing_low).

Definition zero_prices : AtrPrices :=
  {| tp_price := D0; atr_sl_price := D0 |}.

(** Lines 106-113: the two prices before the final clamp; [None] is the
    early return of the [else] branch. *)
Definition atr_swing_prices_unclamped
    (entry_price : Decimal) (direction : PositionDirection)
    (atr swing_high swing_low atr_multiplier_sl atr_multiplier_tp : Decimal)
    : option AtrPrices :=
  match direction with
  | LONG =>
      Some {| atr_sl_price := sub swing_low (mul atr atr_multiplier_sl);
              tp_price := add entry_price (mul atr atr_multiplier_tp) |}
  | SHORT =>
      Some {| atr_sl_price := add swing_high (mul atr atr_multiplier_sl);
              tp_price := sub entry_price (mul atr atr_multiplier_tp) |}
  | Unrecognized => None
  end.

(** The multipliers are optional: [None] takes the default of the
    signature, [Decimal('1.5')] and [Decimal('2.0')].  The result comes
    with the lines logged during the call. *)
Definition calculate_atr_swing_prices
    (entry_price : Decimal) (direction : PositionDirection)
    (analysis_data : dict)
    (atr_multiplier_sl atr_multiplier_tp : option Decimal)
    : list log_line * result AtrPrices :=
  let msl := match atr_multiplier_sl with Some m => m | None => D1_5 end in
  let mtp := match atr_multiplier_tp with Some m => m | None => D2_0 end in
  match read_analysis analysis_data with
  | Raise (KeyError k) => ([LogError (KeyError k)], Return zero_prices)
  | Raise TypeError => ([LogError TypeError], Return zero_prices)
  | Raise e => ([], Raise e)
  | NonFiniteValue => ([], NonFiniteValue)
  | Return (atr, swing_high, swing_low) =>
      match atr_swing_prices_unclamped entry_price direction
              atr swing_high swing_low msl mtp with
      | None => ([], Return zero_prices)
      | Some p =>
          ([], Return {| tp_price := max0 (tp_price p);
                         atr_sl_price := max0 (atr_sl_price p) |})
      end
  end.

(** ** A Python float and the decimal it prints as *)

(** A positive finite binary64 number, [mantissa * 2 ^ exponent2] with
    [2^52 <= mantissa < 2^53].  The percentages are floats, and the module
    reads them through [Decimal(str(p))]: [str] prints the shortest
    numeral that rounds back to the float. *)
Record float : Type := mkfloat { mantissa : Z; exponent2 : Z }.

Definition float_value (x : float) : Q :=
  (inject_Z (mantissa x) * inject_Z 2 ^ exponent2 x)%Q.


(** Does the rational [v] round to [x], to nearest and ties to even? *)
Definition rounds_to (x : float) (v : Q) : bool :=
  let ulp := (inject_Z 2 ^ exponent2 x)%Q in
  let hi := (float_value x + ulp / 2)%Q in
  let lo := if (mantissa x =? 2 ^ 52) && (-1074 <? exponent2 x)
            then (float_value x - ulp / 4)%Q
            else (float_value x - ulp / 2)%Q in
  match (lo ?= v)%Q, (v ?= hi)%Q with
  | Lt, Lt => true
  | Eq, Lt | Lt, Eq => Z.even (mantissa x)
  | _, _ => false
  end.

Definition pow10Q (k : Z) : Q := (inject_Z 10 ^ k)%Q.

(** [floor (log10 x)] *)
Definition exp10 (x : float) : Z :=
  ndigits (Qfloor (float_value x * pow10Q 400)) - 401.

(** The numeral of [n] digits that rounds to [x], the closer one when the
    two neighbours of [x] both do. *)
Definition candidate (x : float) (n : Z) : option (Z * Z) :=
  let k := exp10 x + 1 - n in
  let c := Qfloor (float_value x / pow10Q k) in
  let vlo := (inject_Z c * pow10Q k)%Q in
  let vhi := (inject_Z (c + 1) * pow10Q k)%Q in
  match rounds_to x vlo, rounds_to x vhi with
  | true, false => Some (c, k)
  | false, true => Some (c + 1, k)
  | true, true =>
      match (float_value x - vlo ?= vhi - float_value x)%Q with
      | Gt => Some (c + 1, k)
      | Lt => Some (c, k)
      | Eq => Some (if Z.even c then c else c + 1, k)
      end
  | false, false => None
  end.

Fixpoint shortest (x : float) (fuel : nat) (n : Z) : Z * Z :=
  match fuel with
  | O => (0, 0)
  | S f =>
      match candidate x n with
      | Some ck => ck
      | None => shortest x f (n + 1)
      end
  end.

Fixpoint strip_all (fuel : nat) (c k : Z) : Z * Z :=
  match fuel with
  | O => (c, k)
  | S f =>
      if (c mod 10 =? 0) && negb (c =? 0)
      then strip_all f (c / 10) (k + 1)
      else (c, k)
  end.

(** [Decimal(str(x))].  [str] writes an integral value below 1e16 with a
    trailing [.0], which the constructor keeps as a digit. *)
Definition Decimal_of_float (x : float) : Decimal :=
  let '(c0, k0) := shortest x 17 1 in
  let '(c, k) := strip_all 20 c0 k0 in
  let e10 := k + ndigits c - 1 in
  if (-4 <=? e10) && (e10 <? 16) && (0 <=? k)
  then mk false (c * 10 ^ (k + 1)) (-1)
  else mk false c k.

(** ** Auxiliary definitions used by the statements *)

(** The operands of the integer division inside [div]. *)
Definition div_num (a b : Decimal) : Z :=
  let shift := ndigits (coef b) - ndigits (coef a) + prec + 1 in
  if 0 <=? shift then coef a * 10 ^ shift else coef a.

Definition div_den (a b : Decimal) : Z :=
  let shift := ndigits (coef b) - ndigits (coef a) + prec + 1 in
  if 0 <=? shift then coef b else coef b * 10 ^ (- shift).

(** The quotient of two non-zero decimals before rounding: exact and
    stripped of trailing zeros when the integer division leaves no
    remainder, otherwise with a sticky last digit. *)
Definition div_raw (a b : Decimal) : Decimal :=
  let s := xorb (sign a) (sign b) in
  let shift := ndigits (coef b) - ndigits (coef a) + prec + 1 in
  let e := expo a - expo b - shift in
  let q := div_num a b / div_den a b in
  if div_num a b mod div_den a b =? 0
  then
    let p := strip_zeros (Z.to_nat (expo a - expo b - e)) q e (expo a - expo b) in
    mk s (fst p) (snd p)
  else mk s (if q mod 5 =? 0 then q + 1 else q) e.

(** The quotient when the divisor is not zero. *)
Definition quot (a b : Decimal) : Decimal :=
  match div a b with
  | Return q => q
  | _ => zero
  end.

(** The factor of the second target (lines 34-37). *)
Definition tp2_factor (tp1_percentage : Decimal) (tp2_percentage : option Decimal)
    : Decimal :=
  match tp2_percentage with
  | Some t =>
      if truthy_and_positive (Some t) then quot t D100
      else mul (quot tp1_percentage D100) D2
  | None => mul (quot tp1_percentage D100) D2
  end.

(** The signed coefficient of [x] written at a smaller exponent [e]. *)
Definition scaled (x : Decimal) (e : Z) : Z := sval x * 10 ^ (expo x - e).

(** The exact product and the exact sum, before rounding. *)
Definition mul_exact (a b : Decimal) : Decimal :=
  mk (xorb (sign a) (sign b)) (coef a * coef b) (expo a + expo b).

Definition add_exact (a b : Decimal) : Decimal :=
  let e := Z.min (expo a) (expo b) in
  let z := sval a * 10 ^ (expo a - e) + sval b * 10 ^ (expo b - e) in
  mk (if z =? 0 then sign a && sign b else z <? 0) (Z.abs z) e.

(** Numeric equality, Python's [==] on two decimals. *)
Definition deq (a b : Decimal) : Prop := cmp a b = Eq.

(** A rational that some decimal of at most 50 digits denotes. *)
Definition representable (q : Q) : Prop :=
  exists t : Decimal, wf t /\ ndigits (coef t) <= prec /\ (value t == q)%Q.




(** The exceptions the [except] clause of line 102 catches. *)
Definition caught (e : exn) : Prop :=
  e = TypeError \/ exists k, e = KeyError k.

(** The multiplier in force: the argument, or the default of the signature. *)
Definition multiplier (given : option Decimal) (default : Decimal) : Decimal :=
  match given with Some m => m | None => default end.

(** The price change of a factor (lines 40-47). *)
Definition price_change (entry_price factor : Decimal) (leverage : Z) : Decimal :=
  mul entry_price (quot factor (of_int leverage)).

(** * Properties *)

(** ** The literals and the scenarios of the specification *)

Section Scenarios.

Example literals_parse :
  parse "0" = Finite D0 /\ parse "2" = Finite D2 /\ parse "100" = Finite D100
  /\ parse "1.5" = Finite D1_5 /\ parse "2.0" = Finite D2_0.
Proof. repeat split; reflexivity. Qed.

Example numerals_parse :
  parse " -2.0e+3 " = Finite (mk true 20 2)
  /\ parse "1_000.5E-2" = Finite (mk false 10005 (-3))
  /\ parse ".5" = Finite (mk false 5 (-1))
  /\ parse "5." = Finite (mk false 5 0)
  /\ parse "." = Malformed
  /\ parse "abc" = Malformed
  /\ parse "1e" = Malformed
  /\ parse "NaN" = NonFinite
  /\ parse "-Infinity" = NonFinite.
Proof. repeat split; reflexivity. Qed.

Example floats_print :
  Decimal_of_float (mkfloat 7205759403792794 (-56)) = mk false 1 (-1)
  /\ Decimal_of_float (mkfloat 5629499534213120 (-50)) = mk false 50 (-1).
Proof. split; vm_compute; reflexivity. Qed.

Example division_rounds_half_even :
  div (of_int 2) (of_int 3)
  = Return (mk false 66666666666666666666666666666666666666666666666667 (-50))
  /\ div (of_int 5) D100 = Return (mk false 5 (-2))
  /\ div (of_int 1) D0 = Raise DivisionByZero.
Proof. repeat split; vm_compute; reflexivity. Qed.

Example scenario_long :
  calculate_percentage_based_prices (of_int 30000) LONG 10
    (of_int 5) (of_int 2) None
  = Return {| tp1_price := mk false 30150000 (-3);
              sl_price := mk false 29940000 (-3);
              tp2_price := mk false 3030000 (-2) |}.
Proof. vm_compute. reflexivity. Qed.

Example scenario_short :
  calculate_percentage_based_prices (of_int 30000) SHORT 10
    (of_int 5) (of_int 2) None
  = Return {| tp1_price := mk false 29850000 (-3);
              sl_price := mk false 30060000 (-3);
              tp2_price := mk false 2970000 (-2) |}.
Proof. vm_compute. reflexivity. Qed.

Example scenario_zero_leverage :
  calculate_percentage_based_prices (of_int 30000) LONG 0
    (of_int 5) (of_int 2) None
  = Raise (ValueError "Leverage must be a positive number.").
Proof. reflexivity. Qed.

Example scenario_missing_swing_high :
  calculate_atr_swing_prices (of_int 100) LONG
    [("atr", PyStr "2.5"); ("swingLow", PyInt 95)] None None
  = ([LogError (KeyError "swingHigh")], Return zero_prices).
Proof. vm_compute. reflexivity. Qed.

End Scenarios.

(** ** Digits *)

Section Digits.

Lemma pow10_pos (k : Z) : 0 <= k -> 0 < 10 ^ k.
Proof. intros; apply Z.pow_pos_nonneg; lia. Qed.

Lemma pow10_S (k : Z) : 0 <= k -> 10 ^ (k + 1) = 10 * 10 ^ k.
Proof. intros; rewrite Z.pow_add_r by lia; lia. Qed.

Lemma pow10_le (a b : Z) : 0 <= a <= b -> 10 ^ a <= 10 ^ b.
Proof. intros; apply Z.pow_le_mono_r; lia. Qed.

Lemma pow10_lt (a b : Z) : 0 <= a < b -> 10 ^ a < 10 ^ b.
Proof. intros; apply Z.pow_lt_mono_r; lia. Qed.

Lemma pow10_lt_inv (a b : Z) : 0 <= a -> 0 <= b -> 10 ^ a < 10 ^ b -> a < b.
Proof.
  intros Ha Hb H. destruct (Z_lt_le_dec a b) as [|Hle]; [assumption|].
  pose proof (pow10_le b a ltac:(lia)). lia.
Qed.

Lemma ndigits_aux_ge_1 (fuel : nat) : forall n, 1 <= ndigits_aux fuel n.
Proof.
  induction fuel as [|f IH]; intros n; cbn [ndigits_aux]; [lia|].
  destruct (n <? 10); [lia|]. specialize (IH (n / 10)). lia.
Qed.

Lemma ndigits_aux_spec (fuel : nat) :
  forall n, 0 < n -> n < 10 ^ (Z.of_nat fuel + 1) ->
            10 ^ (ndigits_aux fuel n - 1) <= n < 10 ^ (ndigits_aux fuel n).
Proof.
  induction fuel as [|f IH]; intros n Hpos Hlt.
  - simpl in *. lia.
  - cbn [ndigits_aux]. destruct (Z.ltb_spec n 10) as [Hs|Hb].
    + simpl. lia.
    + assert (Hq : 0 < n / 10) by (apply Z.div_str_pos; lia).
      assert (Hqlt : n / 10 < 10 ^ (Z.of_nat f + 1)).
      { apply Z.div_lt_upper_bound; [lia|].
        rewrite <- pow10_S by lia.
        replace (Z.of_nat f + 1 + 1) with (Z.of_nat (S f) + 1) by lia.
        exact Hlt. }
      specialize (IH _ Hq Hqlt).
      pose proof (ndigits_aux_ge_1 f (n / 10)) as Hd.
      replace (1 + ndigits_aux f (n / 10) - 1) with (ndigits_aux f (n / 10) - 1 + 1) by lia.
      replace (1 + ndigits_aux f (n / 10)) with (ndigits_aux f (n / 10) + 1) by lia.
      rewrite !pow10_S by lia.
      pose proof (Z.div_mod n 10 ltac:(lia)).
      pose proof (Z.mod_pos_bound n 10 ltac:(lia)).
      lia.
Qed.

Lemma ndigits_spec (n : Z) :
  0 < n -> 10 ^ (ndigits n - 1) <= n < 10 ^ (ndigits n).
Proof.
  intros Hpos. unfold ndigits. apply ndigits_aux_spec; [assumption|].
  rewrite Z2Nat.id by apply Z.log2_nonneg.
  pose proof (Z.log2_spec n Hpos) as [_ H2].
  replace (Z.succ (Z.log2 n)) with (Z.log2 n + 1) in H2 by lia.
  assert (2 ^ (Z.log2 n + 1) <= 10 ^ (Z.log2 n + 1)).
  { apply Z.pow_le_mono_l. lia. }
  lia.
Qed.

Lemma ndigits_ge_1 (n : Z) : 1 <= ndigits n.
Proof.
  unfold ndigits. apply ndigits_aux_ge_1.
Qed.

Lemma ndigits_unique (n k : Z) :
  0 < n -> 10 ^ (k - 1) <= n < 10 ^ k -> ndigits n = k.
Proof.
  intros Hpos [Hlo Hhi].
  pose proof (ndigits_spec n Hpos) as [Dlo Dhi].
  pose proof (ndigits_ge_1 n) as D1.
  assert (Hk : 1 <= k).
  { destruct (Z_lt_le_dec k 1) as [Hk|]; [|lia].
    exfalso. destruct (Z.eq_dec k 0) as [->|].
    - simpl in Hhi. lia.
    - rewrite Z.pow_neg_r in Hhi by lia. lia. }
  assert (ndigits n - 1 < k) by (apply pow10_lt_inv; lia).
  assert (k - 1 < ndigits n) by (apply pow10_lt_inv; lia).
  lia.
Qed.

Lemma ndigits_pad (c k : Z) :
  0 < c -> 0 <= k -> ndigits (c * 10 ^ k) = ndigits c + k.
Proof.
  intros Hc Hk.
  pose proof (ndigits_spec c Hc) as [Dlo Dhi].
  pose proof (ndigits_ge_1 c) as D1.
  pose proof (pow10_pos k Hk) as Pk.
  apply ndigits_unique; [nia|].
  replace (ndigits c + k - 1) with (ndigits c - 1 + k) by lia.
  rewrite !Z.pow_add_r by lia. split; nia.
Qed.

Lemma ndigits_le_iff (n k : Z) :
  0 < n -> 0 <= k -> (ndigits n <= k <-> n < 10 ^ k).
Proof.
  intros Hn Hk. pose proof (ndigits_spec n Hn) as [Dlo Dhi].
  pose proof (ndigits_ge_1 n).
  split; intros H0.
  - pose proof (pow10_le (ndigits n) k ltac:(lia)). lia.
  - assert (ndigits n - 1 < k) by (apply pow10_lt_inv; lia). lia.
Qed.

End Digits.

(** ** Signs, comparison with zero *)

Section Signs.

Lemma sval_pos_iff (x : Decimal) :
  wf x -> (0 < sval x <-> sign x = false /\ 0 < coef x).
Proof. unfold wf, sval; destruct (sign x); intros; split; intros; try lia; intuition congruence. Qed.

Lemma sval_neg_iff (x : Decimal) :
  wf x -> (sval x < 0 <-> sign x = true /\ 0 < coef x).
Proof. unfold wf, sval; destruct (sign x); intros; split; intros; try lia; intuition congruence. Qed.

Lemma sval_zero_iff (x : Decimal) : sval x = 0 <-> coef x = 0.
Proof. unfold sval; destruct (sign x); lia. Qed.

Lemma cmp_zero_r (a : Decimal) : cmp a zero = (sval a ?= 0).
Proof.
  unfold cmp, zero; cbn [expo sval sign coef].
  rewrite Z.mul_0_l.
  assert (P : 0 < 10 ^ (expo a - Z.min (expo a) 0)) by (apply pow10_pos; lia).
  destruct (Z.compare_spec (sval a) 0) as [E|E|E].
  - rewrite E. reflexivity.
  - apply Z.compare_lt_iff. nia.
  - apply Z.compare_gt_iff. nia.
Qed.

Lemma cmp_zero_l (a : Decimal) : cmp zero a = (0 ?= sval a).
Proof.
  unfold cmp, zero; cbn [expo sval sign coef].
  rewrite Z.mul_0_l.
  assert (P : 0 < 10 ^ (expo a - Z.min 0 (expo a))) by (apply pow10_pos; lia).
  destruct (Z.compare_spec 0 (sval a)) as [E|E|E].
  - rewrite <- E. reflexivity.
  - apply Z.compare_lt_iff. nia.
  - apply Z.compare_gt_iff. nia.
Qed.


Lemma ltb_zero_l (a : Decimal) : ltb zero a = (0 <? sval a).
Proof. unfold ltb. rewrite cmp_zero_l. unfold Z.ltb. reflexivity. Qed.

Lemma leb_zero_r (a : Decimal) : leb a zero = (sval a <=? 0).
Proof. unfold leb. rewrite cmp_zero_r. unfold Z.leb. reflexivity. Qed.

Lemma max0_nonneg (x : Decimal) : ltb (max0 x) zero = false.
Proof. unfold max0. destruct (ltb x zero) eqn:E; [reflexivity | exact E]. Qed.

Lemma max0_wf (x : Decimal) : wf x -> wf (max0 x).
Proof. unfold max0. destruct (ltb x zero); [unfold wf; simpl; lia | auto]. Qed.

End Signs.

(** ** Rounding keeps the sign and never produces zero *)

Section Rounding.

Lemma round_half_even_bounds (c d : Z) :
  0 <= d -> c / 10 ^ d <= round_half_even c d <= c / 10 ^ d + 1.
Proof.
  intros. unfold round_half_even.
  destruct ((2 * (c mod 10 ^ d) >? 10 ^ d)
            || (2 * (c mod 10 ^ d) =? 10 ^ d) && Z.odd (c / 10 ^ d)); lia.
Qed.

Lemma div_pow10_lower (c n d : Z) :
  0 <= d -> d <= n -> 10 ^ n <= c -> 10 ^ (n - d) <= c / 10 ^ d.
Proof.
  intros Hd Hn Hc. apply Z.div_le_lower_bound; [apply pow10_pos; lia|].
  rewrite <- Z.pow_add_r by lia. replace (d + (n - d)) with n by lia. exact Hc.
Qed.

Lemma div_pow10_upper (c n d : Z) :
  0 <= d -> d <= n -> c < 10 ^ n -> c / 10 ^ d < 10 ^ (n - d).
Proof.
  intros Hd Hn Hc. apply Z.div_lt_upper_bound; [apply pow10_pos; lia|].
  rewrite <- Z.pow_add_r by lia. replace (d + (n - d)) with n by lia. exact Hc.
Qed.

(** Dropping the digits beyond the precision leaves 50 digits, or the
    power of ten with 51. *)
Lemma round_half_even_range (c : Z) :
  0 < c -> prec < ndigits c ->
  10 ^ (prec - 1) <= round_half_even c (ndigits c - prec) <= 10 ^ prec.
Proof.
  intros Hc Hn. pose proof (ndigits_spec c Hc) as [Dlo Dhi].
  pose proof (round_half_even_bounds c (ndigits c - prec) ltac:(lia)) as [Rlo Rhi].
  pose proof (div_pow10_lower c (ndigits c - 1) (ndigits c - prec)
                ltac:(lia) ltac:(unfold prec in *; lia) Dlo) as L.
  pose proof (div_pow10_upper c (ndigits c) (ndigits c - prec)
                ltac:(lia) ltac:(unfold prec in *; lia) Dhi) as U.
  replace (ndigits c - 1 - (ndigits c - prec)) with (prec - 1) in L by lia.
  replace (ndigits c - (ndigits c - prec)) with prec in U by lia.
  lia.
Qed.

Lemma dfix_sign (x : Decimal) : sign (dfix x) = sign x.
Proof.
  unfold dfix. destruct ((coef x =? 0) || (ndigits (coef x) <=? prec)); [reflexivity|].
  destruct (ndigits _ >? prec); reflexivity.
Qed.

Lemma dfix_coef_pos (x : Decimal) : 0 < coef x -> 0 < coef (dfix x).
Proof.
  intros Hc. unfold dfix.
  destruct (Z.eqb_spec (coef x) 0) as [E|_]; [lia|]. cbn [orb].
  destruct (Z.leb_spec (ndigits (coef x)) prec) as [|Hn]; [assumption|].
  pose proof (round_half_even_range (coef x) Hc Hn) as [Rlo Rhi].
  set (c := round_half_even (coef x) (ndigits (coef x) - prec)) in *.
  assert (P49 : 0 < 10 ^ (prec - 1)) by (apply pow10_pos; unfold prec; lia).
  destruct (ndigits c >? prec) eqn:E; cbn [coef]; [|lia].
  apply Z.gtb_lt in E.
  assert (Hcpos : 0 < c) by lia.
  assert (Hge : 10 ^ prec <= c).
  { destruct (Z_lt_le_dec c (10 ^ prec)) as [Hlt|]; [|assumption].
    apply (ndigits_le_iff c prec Hcpos) in Hlt; [lia | unfold prec; lia]. }
  apply Z.div_str_pos. change (10 ^ prec) with (10 * 10 ^ (prec - 1)) in Hge. lia.
Qed.

Lemma dfix_coef_zero (x : Decimal) : coef x = 0 -> dfix x = x.
Proof. intros E. unfold dfix. rewrite E. reflexivity. Qed.

Lemma dfix_wf (x : Decimal) : wf x -> wf (dfix x).
Proof.
  unfold wf. intros H. destruct (Z.eq_dec (coef x) 0) as [E|E].
  - rewrite dfix_coef_zero by assumption. lia.
  - pose proof (dfix_coef_pos x ltac:(lia)). lia.
Qed.

End Rounding.

(** ** Division returns, and its quotient is never zero *)

Section Division.

Lemma strip_zeros_pos (fuel : nat) :
  forall c e ideal, 0 < c -> 0 < fst (strip_zeros fuel c e ideal).
Proof.
  induction fuel as [|f IH]; intros c e ideal Hc; cbn [strip_zeros]; [assumption|].
  destruct (e <? ideal); cbn [andb]; [|assumption].
  destruct (Z.eqb_spec (c mod 10) 0) as [E|_]; [|assumption].
  apply IH. pose proof (Z.div_mod c 10 ltac:(lia)). lia.
Qed.

Lemma div_den_pos (a b : Decimal) : 0 < coef b -> 0 < div_den a b.
Proof.
  intros Hb. unfold div_den.
  destruct (0 <=? _) eqn:E; [assumption|].
  apply Z.leb_gt in E.
  apply Z.mul_pos_pos; [assumption | apply pow10_pos; lia].
Qed.

(** The scaling makes the numerator at least [10 ^ prec] times the
    denominator. *)
Lemma div_num_large (a b : Decimal) :
  0 < coef a -> 0 < coef b -> 10 ^ prec * div_den a b <= div_num a b.
Proof.
  intros Ha Hb. unfold div_num, div_den.
  pose proof (ndigits_spec _ Ha) as [Alo Ahi].
  pose proof (ndigits_spec _ Hb) as [Blo Bhi].
  pose proof (ndigits_ge_1 (coef a)). pose proof (ndigits_ge_1 (coef b)).
  set (la := ndigits (coef a)) in *. set (lb := ndigits (coef b)) in *.
  assert (P : 0 < 10 ^ prec) by (apply pow10_pos; unfold prec; lia).
  destruct (Z.leb_spec 0 (lb - la + prec + 1)) as [Hs|Hs].
  - assert (10 ^ prec * 10 ^ lb <= 10 ^ (la - 1) * 10 ^ (lb - la + prec + 1)).
    { rewrite <- !Z.pow_add_r by (unfold prec in *; lia).
      apply pow10_le. unfold prec in *. lia. }
    assert (0 < 10 ^ (lb - la + prec + 1)) by (apply pow10_pos; lia).
    nia.
  - assert (10 ^ prec * (10 ^ lb * 10 ^ (- (lb - la + prec + 1))) <= 10 ^ (la - 1)).
    { rewrite <- !Z.pow_add_r by (unfold prec in *; lia).
      apply pow10_le. unfold prec in *. lia. }
    assert (0 < 10 ^ (- (lb - la + prec + 1))) by (apply pow10_pos; lia).
    nia.
Qed.

Lemma div_quot_large (a b : Decimal) :
  0 < coef a -> 0 < coef b -> 10 ^ prec <= div_num a b / div_den a b.
Proof.
  intros Ha Hb. apply Z.div_le_lower_bound; [apply div_den_pos; assumption|].
  rewrite Z.mul_comm. apply div_num_large; assumption.
Qed.

Lemma div_returns (a b : Decimal) :
  coef b <> 0 -> exists q, div a b = Return q.
Proof.
  intros Hb. unfold div.
  destruct (Z.eqb_spec (coef b) 0) as [|_]; [contradiction|].
  destruct (coef a =? 0); [eexists; reflexivity|].
  match goal with |- context [let '(c, e') := ?t in _] => destruct t as [c e'] end.
  eexists; reflexivity.
Qed.

Lemma div_zero_l (a b q : Decimal) :
  coef a = 0 -> div a b = Return q -> coef q = 0.
Proof.
  intros Ha. unfold div. rewrite Ha.
  destruct (coef b =? 0); cbn [Z.eqb]; [discriminate|].
  intros [= <-]. rewrite dfix_coef_zero; reflexivity.
Qed.

Lemma div_nonzero (a b q : Decimal) :
  0 < coef a -> 0 < coef b -> div a b = Return q ->
  0 < coef q /\ sign q = xorb (sign a) (sign b).
Proof.
  intros Ha Hb. unfold div.
  destruct (Z.eqb_spec (coef b) 0) as [|_]; [lia|].
  destruct (Z.eqb_spec (coef a) 0) as [|_]; [lia|].
  fold (div_num a b). fold (div_den a b).
  pose proof (div_quot_large a b Ha Hb) as Hq.
  assert (P : 0 < 10 ^ prec) by (apply pow10_pos; unfold prec; lia).
  set (qq := div_num a b / div_den a b) in *.
  destruct (div_num a b mod div_den a b =? 0).
  - match goal with |- context [strip_zeros ?f ?c ?e ?i] =>
      pose proof (strip_zeros_pos f c e i ltac:(lia)) as Hs;
      destruct (strip_zeros f c e i) as [c' e'] end.
    cbn [fst] in Hs. intros [= <-]. rewrite dfix_sign. cbn [sign].
    split; [apply dfix_coef_pos; assumption | reflexivity].
  - intros [= <-]. rewrite dfix_sign. cbn [sign].
    split; [|reflexivity]. apply dfix_coef_pos. cbn [coef].
    destruct (qq mod 5 =? 0); lia.
Qed.

Lemma div_wf (a b q : Decimal) :
  wf a -> wf b -> div a b = Return q -> wf q.
Proof.
  unfold wf. intros Ha Hb H.
  destruct (Z.eq_dec (coef b) 0) as [Eb|Eb].
  { unfold div in H. rewrite Eb in H. cbn in H. destruct (coef a =? 0); discriminate. }
  destruct (Z.eq_dec (coef a) 0) as [Ea|Ea].
  { rewrite (div_zero_l a b q Ea H). lia. }
  pose proof (div_nonzero a b q ltac:(lia) ltac:(lia) H). lia.
Qed.

Lemma mul_wf (a b : Decimal) : wf a -> wf b -> wf (mul a b).
Proof. unfold wf, mul. intros. apply dfix_wf. unfold wf. cbn [coef]. nia. Qed.

Lemma add_wf (a b : Decimal) : wf (add a b).
Proof. unfold add. apply dfix_wf. unfold wf. cbn [coef]. lia. Qed.

Lemma sub_wf (a b : Decimal) : wf (sub a b).
Proof. unfold sub. apply add_wf. Qed.

Lemma of_int_pos (n : Z) : 0 < n -> coef (of_int n) = n /\ sign (of_int n) = false.
Proof.
  intros H. unfold of_int. cbn [coef sign]. split; [lia|].
  apply Z.ltb_ge. lia.
Qed.

Lemma of_int_wf (n : Z) : wf (of_int n).
Proof. unfold wf, of_int. cbn [coef]. lia. Qed.

End Division.

(** ** The percentage calculation in closed form *)

Section ClosedForm.

Lemma div_quot (a b : Decimal) : coef b <> 0 -> div a b = Return (quot a b).
Proof.
  intros Hb. unfold quot. destruct (div_returns a b Hb) as [q ->]. reflexivity.
Qed.

Lemma coef_of_int_nonzero (n : Z) : 0 < n -> coef (of_int n) <> 0.
Proof. intros H. destruct (of_int_pos n H) as [-> _]. lia. Qed.

Lemma coef_D100_nonzero : coef D100 <> 0.
Proof. discriminate. Qed.

Lemma unclamped_closed_form entry direction leverage tp1 sl tp2 :
  0 < leverage ->
  percentage_based_prices_unclamped entry direction leverage tp1 sl tp2 =
  let c1 := price_change entry (quot tp1 D100) leverage in
  let cs := price_change entry (quot sl D100) leverage in
  let c2 := price_change entry (tp2_factor tp1 tp2) leverage in
  match direction with
  | LONG => Return {| tp1_price := add entry c1;
                      sl_price := sub entry cs;
                      tp2_price := add entry c2 |}
  | SHORT => Return {| tp1_price := sub entry c1;
                       sl_price := add entry cs;
                       tp2_price := sub entry c2 |}
  | Unrecognized => Raise (ValueError "Invalid position direction provided")
  end.
Proof.
  intros Hlev. unfold percentage_based_prices_unclamped.
  destruct (Z.leb_spec leverage 0) as [|_]; [lia|].
  pose proof (coef_of_int_nonzero leverage Hlev) as HL.
  rewrite (div_quot tp1 D100 coef_D100_nonzero). cbn [bind].
  rewrite (div_quot sl D100 coef_D100_nonzero). cbn [bind].
  assert (E : (if truthy_and_positive tp2
               then match tp2 with
                    | Some t => div t D100
                    | None => Return (mul (quot tp1 D100) D2)
                    end
               else Return (mul (quot tp1 D100) D2))
              = Return (tp2_factor tp1 tp2)).
  { unfold tp2_factor. destruct tp2 as [t|]; [|reflexivity].
    destruct (truthy_and_positive (Some t)); [|reflexivity].
    apply div_quot, coef_D100_nonzero. }
  rewrite E. cbn [bind].
  rewrite !(div_quot _ (of_int leverage) HL). cbn [bind].
  unfold price_change. destruct direction; reflexivity.
Qed.

Lemma unclamped_nonpositive_leverage entry direction leverage tp1 sl tp2 :
  leverage <= 0 ->
  percentage_based_prices_unclamped entry direction leverage tp1 sl tp2 =
  Raise (ValueError "Leverage must be a positive number.").
Proof.
  intros H. unfold percentage_based_prices_unclamped.
  destruct (Z.leb_spec leverage 0); [reflexivity | lia].
Qed.

End ClosedForm.

(** ** Which calls raise, which return *)

Section Outcomes.


Lemma position_size_outcome risk_amount leverage :
  ((leverage <= 0 \/ ltb risk_amount zero = true) /\
   exists msg,
     calculate_position_size_usdt risk_amount leverage = Raise (ValueError msg))
  \/
  ((0 < leverage /\ ltb risk_amount zero = false) /\
   calculate_position_size_usdt risk_amount leverage
   = Return (mul risk_amount (of_int leverage))).
Proof.
  unfold calculate_position_size_usdt. change (of_int 0) with zero.
  destruct (Z.leb_spec leverage 0) as [Hle|Hgt].
  - left. split; [left; assumption | eexists; reflexivity].
  - destruct (ltb risk_amount zero) eqn:E.
    + left. split; [right; reflexivity | eexists; reflexivity].
    + right. split; [split; [assumption | reflexivity] | reflexivity].
Qed.

Lemma quantity_outcome position_size_usdt price :
  (leb price zero = true /\
   exists msg,
     calculate_quantity_from_usdt position_size_usdt price
     = Raise (ValueError msg))
  \/
  (leb price zero = false /\
   exists q,
     calculate_quantity_from_usdt position_size_usdt price = Return q /\
     div position_size_usdt price = Return q).
Proof.
  unfold calculate_quantity_from_usdt. change (of_int 0) with zero.
  destruct (leb price zero) eqn:E.
  - left. split; [reflexivity | eexists; reflexivity].
  - right. split; [reflexivity|].
    rewrite leb_zero_r in E. apply Z.leb_gt in E.
    assert (Hb : coef price <> 0).
    { intros H0. apply sval_zero_iff in H0. lia. }
    destruct (div_returns position_size_usdt price Hb) as [q Hq].
    exists q. split; assumption.
Qed.

End Outcomes.






(** ** The clamp *)

(** C4.  Every price either calculator returns is the maximum of the
    computed price and zero: [Decimal('0')] when the computed price is
    negative, the computed price itself otherwise; so no returned price is
    negative.  The volatility calculator returns without computing a price
    only on its degenerate paths. *)
Theorem C4_prices_clamped_at_zero :
  (forall entry direction leverage tp1 sl tp2 r,
      calculate_percentage_based_prices entry direction leverage tp1 sl tp2
      = Return r ->
      exists p,
        percentage_based_prices_unclamped entry direction leverage tp1 sl tp2
        = Return p
        /\ tp1_price r = (if ltb (tp1_price p) zero then D0 else tp1_price p)
        /\ sl_price r = (if ltb (sl_price p) zero then D0 else sl_price p)
        /\ tp2_price r = (if ltb (tp2_price p) zero then D0 else tp2_price p)
        /\ ltb (tp1_price r) zero = false
        /\ ltb (sl_price r) zero = false
        /\ ltb (tp2_price r) zero = false)
  /\
  (forall entry direction analysis_data msl mtp log r,
      calculate_atr_swing_prices entry direction analysis_data msl mtp
      = (log, Return r) ->
      (r = zero_prices /\
       (direction = Unrecognized \/
        exists e, read_analysis analysis_data = Raise e))
      \/
      exists atr swing_high swing_low p,
        read_analysis analysis_data = Return (atr, swing_high, swing_low)
        /\ atr_swing_prices_unclamped entry direction atr swing_high swing_low
             (multiplier msl D1_5) (multiplier mtp D2_0) = Some p
        /\ tp_price r = (if ltb (tp_price p) zero then D0 else tp_price p)
        /\ atr_sl_price r
           = (if ltb (atr_sl_price p) zero then D0 else atr_sl_price p)
        /\ ltb (tp_price r) zero = false
        /\ ltb (atr_sl_price r) zero = false).
Proof.
  split.
  - intros entry direction leverage tp1 sl tp2 r.
    unfold calculate_percentage_based_prices.
    destruct (percentage_based_prices_unclamped entry direction leverage tp1 sl tp2)
      as [p|e|]; cbn [bind]; [|discriminate|discriminate].
    intros [= <-]. exists p. cbn [tp1_price sl_price tp2_price].
    split; [reflexivity|]. repeat split; try reflexivity; apply max0_nonneg.
  - intros entry direction analysis_data msl mtp log r.
    unfold calculate_atr_swing_prices.
    fold (multiplier msl D1_5). fold (multiplier mtp D2_0).
    destruct (read_analysis analysis_data) as [[[atr sh] swl]|e|].
    + destruct direction; cbn [atr_swing_prices_unclamped].
      * intros [= <- <-]. right. do 4 eexists. split; [reflexivity|].
        split; [reflexivity|]. cbn [tp_price atr_sl_price].
        repeat split; try reflexivity; apply max0_nonneg.
      * intros [= <- <-]. right. do 4 eexists. split; [reflexivity|].
        split; [reflexivity|]. cbn [tp_price atr_sl_price].
        repeat split; try reflexivity; apply max0_nonneg.
      * intros [= <- <-]. left. split; [reflexivity | left; reflexivity].
    + destruct e; intros [= <- <-]; left;
        (split; [reflexivity | right; eexists; reflexivity]).
    + discriminate.
Qed.

Lemma C4_prices_clamped_at_zero_witness :
  exists p,
    percentage_based_prices_unclamped (mk false 100 0) LONG 1
      (mk false 5 0) (mk false 200 0) None = Return p
    /\ tp1_price {| tp1_price := mk false 10500 (-2);
                    sl_price := D0;
                    tp2_price := mk false 11000 (-2) |}
       = (if ltb (tp1_price p) zero then D0 else tp1_price p)
    /\ sl_price {| tp1_price := mk false 10500 (-2);
                   sl_price := D0;
                   tp2_price := mk false 11000 (-2) |}
       = (if ltb (sl_price p) zero then D0 else sl_price p)
    /\ tp2_price {| tp1_price := mk false 10500 (-2);
                    sl_price := D0;
                    tp2_price := mk false 11000 (-2) |}
       = (if ltb (tp2_price p) zero then D0 else tp2_price p)
    /\ ltb (mk false 10500 (-2)) zero = false
    /\ ltb D0 zero = false
    /\ ltb (mk false 11000 (-2)) zero = false.
Proof.
  apply (proj1 C4_prices_clamped_at_zero (mk false 100 0) LONG 1
           (mk false 5 0) (mk false 200 0) None).
  vm_compute. reflexivity.
Defined.

(** ** The volatility calculation *)

Section Volatility.

Lemma getitem_absent (d : dict) (k : string) :
  (forall v, ~ In (k, v) d) -> getitem d k = Raise (KeyError k).
Proof.
  induction d as [|[k' v'] t IH]; intros H; cbn [getitem]; [reflexivity|].
  destruct (String.eqb_spec k k') as [->|_].
  - exfalso. apply (H v'). left. reflexivity.
  - apply IH. intros v Hin. apply (H v). right. exact Hin.
Qed.

Lemma getitem_present (d : dict) (k : string) (v : pyval) :
  getitem d k = Return v -> In (k, v) d.
Proof.
  induction d as [|[k' v'] t IH]; cbn [getitem]; [discriminate|].
  destruct (String.eqb_spec k k') as [->|_].
  - intros [= ->]. left. reflexivity.
  - intros H. right. apply IH, H.
Qed.

Lemma read_field_absent (d : dict) (k : string) :
  (forall v, ~ In (k, v) d) -> read_field d k = Raise (KeyError k).
Proof. intros H. unfold read_field. rewrite getitem_absent by assumption. reflexivity. Qed.

Lemma read_field_none (d : dict) (k : string) :
  getitem d k = Return PyNone -> read_field d k = Raise TypeError.
Proof. intros H. unfold read_field. rewrite H. reflexivity. Qed.

(** What the three conversions of the [try] give, in their order. *)
Lemma read_analysis_cases (d : dict) :
  match read_field d "atr" with
  | Return atr =>
      match read_field d "swingHigh" with
      | Return swing_high =>
          match read_field d "swingLow" with
          | Return swing_low =>
              read_analysis d = Return (atr, swing_high, swing_low)
          | Raise e => read_analysis d = Raise e
          | NonFiniteValue => read_analysis d = NonFiniteValue
          end
      | Raise e => read_analysis d = Raise e
      | NonFiniteValue => read_analysis d = NonFiniteValue
      end
  | Raise e => read_analysis d = Raise e
  | NonFiniteValue => read_analysis d = NonFiniteValue
  end.
Proof.
  unfold read_analysis.
  destruct (read_field d "atr"); cbn [bind]; try reflexivity.
  destruct (read_field d "swingHigh"); cbn [bind]; try reflexivity.
  destruct (read_field d "swingLow"); cbn [bind]; reflexivity.
Qed.

Lemma atr_swing_caught entry direction d msl mtp e :
  read_analysis d = Raise e -> caught e ->
  calculate_atr_swing_prices entry direction d msl mtp
  = ([LogError e], Return zero_prices).
Proof.
  intros H C. unfold calculate_atr_swing_prices. rewrite H.
  destruct C as [->|[k ->]]; reflexivity.
Qed.


End Volatility.

(** C5.  With the three fields converted, the volatility calculator
    computes, before the clamp, for LONG the stop [swingLow - atr * msl]
    and the target [entry + atr * mtp], for SHORT the stop
    [swingHigh + atr * msl] and the target [entry - atr * mtp], in the
    module's decimal arithmetic; an omitted multiplier is [Decimal('1.5')]
    for the stop and [Decimal('2.0')] for the target.  The call logs
    nothing and returns these prices clamped. *)
Theorem C5_atr_swing_formulas :
  forall entry analysis_data atr swing_high swing_low msl mtp,
    read_analysis analysis_data = Return (atr, swing_high, swing_low) ->
    multiplier None D1_5 = mk false 15 (-1)
    /\ multiplier None D2_0 = mk false 20 (-1)
    /\ atr_swing_prices_unclamped entry LONG atr swing_high swing_low
         (multiplier msl D1_5) (multiplier mtp D2_0)
       = Some {| tp_price := add entry (mul atr (multiplier mtp D2_0));
                 atr_sl_price := sub swing_low (mul atr (multiplier msl D1_5)) |}
    /\ atr_swing_prices_unclamped entry SHORT atr swing_high swing_low
         (multiplier msl D1_5) (multiplier mtp D2_0)
       = Some {| tp_price := sub entry (mul atr (multiplier mtp D2_0));
                 atr_sl_price := add swing_high (mul atr (multiplier msl D1_5)) |}
    /\ calculate_atr_swing_prices entry LONG analysis_data msl mtp
       = ([], Return
                {| tp_price := max0 (add entry (mul atr (multiplier mtp D2_0)));
                   atr_sl_price :=
                     max0 (sub swing_low (mul atr (multiplier msl D1_5))) |})
    /\ calculate_atr_swing_prices entry SHORT analysis_data msl mtp
       = ([], Return
                {| tp_price := max0 (sub entry (mul atr (multiplier mtp D2_0)));
                   atr_sl_price :=
                     max0 (add swing_high (mul atr (multiplier msl D1_5))) |}).
Proof.
  intros entry analysis_data atr swing_high swing_low msl mtp H.
  unfold calculate_atr_swing_prices. rewrite H.
  repeat split; reflexivity.
Qed.

Lemma C5_atr_swing_formulas_witness :
  calculate_atr_swing_prices (mk false 100 0) LONG
    [("atr", PyStr "2.5"); ("swingHigh", PyStr "110"); ("swingLow", PyInt 95)]
    None None
  = ([], Return {| tp_price := mk false 10500 (-2);
                   atr_sl_price := mk false 9125 (-2) |})
  /\ calculate_atr_swing_prices (mk false 100 0) SHORT
    [("atr", PyStr "2.5"); ("swingHigh", PyStr "110"); ("swingLow", PyInt 95)]
    None None
  = ([], Return {| tp_price := mk false 9500 (-2);
                   atr_sl_price := mk false 11375 (-2) |}).
Proof.
  pose proof (C5_atr_swing_formulas (mk false 100 0)
    [("atr", PyStr "2.5"); ("swingHigh", PyStr "110"); ("swingLow", PyInt 95)]
    (mk false 25 (-1)) (mk false 110 0) (mk false 95 0) None None
    ltac:(vm_compute; reflexivity)) as (_ & _ & _ & _ & HL & HS).
  split; [rewrite HL | rewrite HS]; vm_compute; reflexivity.
Defined.

(** C2 as stated fails on the design of the code: with the three fields
    convertible and an unrecognized direction the degenerate result comes
    back and nothing is logged. *)
Lemma C2_unrecognized_direction_not_logged :
  let analysis_data :=
    [("atr", PyStr "2.5"); ("swingHigh", PyStr "110"); ("swingLow", PyInt 95)] in
  calculate_atr_swing_prices (mk false 100 0) Unrecognized analysis_data None None
  = ([], Return zero_prices)
  /\ ~ (exists line log,
          fst (calculate_atr_swing_prices (mk false 100 0) Unrecognized
                 analysis_data None None) = line :: log).
Proof.
  cbv zeta. split; [vm_compute; reflexivity|].
  intros (line & log & H). vm_compute in H. discriminate.
Qed.

(** A field holding a string that is no numeral is not covered by the
    [except] clause: [Decimal] raises [InvalidOperation], which reaches the
    caller. *)
Lemma atr_swing_malformed_string_raises :
  calculate_atr_swing_prices (mk false 100 0) LONG
    [("atr", PyStr "abc"); ("swingHigh", PyStr "110"); ("swingLow", PyInt 95)]
    None None
  = ([], Raise InvalidOperation).
Proof. vm_compute. reflexivity. Qed.

(** C2, amended.  The volatility calculator returns the degenerate result
    [{tp_price: 0, sl_price: 0}] without raising, and logs the exception,
    when the first field that fails (in the order atr, swingHigh,
    swingLow) is absent from the record ([KeyError]) or holds a value
    [Decimal] rejects with [TypeError], such as [None].  When the three
    fields convert and the direction is unrecognized it returns the same
    result and logs nothing. *)
Theorem C2_soft_failure :
  forall entry direction analysis_data msl mtp,
    (forall key,
        (forall v, ~ In (key, v) analysis_data) ->
        read_field analysis_data key = Raise (KeyError key))
    /\ (forall key,
        getitem analysis_data key = Return PyNone ->
        read_field analysis_data key = Raise TypeError)
    /\ (forall e,
        caught e ->
        read_field analysis_data "atr" = Raise e ->
        calculate_atr_swing_prices entry direction analysis_data msl mtp
        = ([LogError e], Return zero_prices))
    /\ (forall e atr,
        caught e ->
        read_field analysis_data "atr" = Return atr ->
        read_field analysis_data "swingHigh" = Raise e ->
        calculate_atr_swing_prices entry direction analysis_data msl mtp
        = ([LogError e], Return zero_prices))
    /\ (forall e atr swing_high,
        caught e ->
        read_field analysis_data "atr" = Return atr ->
        read_field analysis_data "swingHigh" = Return swing_high ->
        read_field analysis_data "swingLow" = Raise e ->
        calculate_atr_swing_prices entry direction analysis_data msl mtp
        = ([LogError e], Return zero_prices))
    /\ (forall atr swing_high swing_low,
        read_analysis analysis_data = Return (atr, swing_high, swing_low) ->
        calculate_atr_swing_prices entry Unrecognized analysis_data msl mtp
        = ([], Return zero_prices)).
Proof.
  intros entry direction d msl mtp.
  pose proof (read_analysis_cases d) as RC.
  split; [intros; apply read_field_absent; assumption|].
  split; [intros; apply read_field_none; assumption|].
  split; [|split; [|split]].
  - intros e C H. rewrite H in RC. apply atr_swing_caught; assumption.
  - intros e atr C H1 H2. rewrite H1, H2 in RC. apply atr_swing_caught; assumption.
  - intros e atr sh C H1 H2 H3. rewrite H1, H2, H3 in RC.
    apply atr_swing_caught; assumption.
  - intros atr sh swl H. unfold calculate_atr_swing_prices. rewrite H. reflexivity.
Qed.

Lemma C2_soft_failure_witness :
  calculate_atr_swing_prices (mk false 100 0) LONG
    [("atr", PyStr "2.5"); ("swingLow", PyNone)] None None
  = ([LogError (KeyError "swingHigh")], Return zero_prices)
  /\ calculate_atr_swing_prices (mk false 100 0) LONG
    [("atr", PyStr "2.5"); ("swingHigh", PyInt 110); ("swingLow", PyNone)]
    None None
  = ([LogError TypeError], Return zero_prices).
Proof.
  split.
  - refine (proj1 (proj2 (proj2 (proj2 (C2_soft_failure (mk false 100 0) LONG
      [("atr", PyStr "2.5"); ("swingLow", PyNone)] None None))))
      (KeyError "swingHigh") (mk false 25 (-1)) _ _ _).
    + right. exists "swingHigh". reflexivity.
    + vm_compute. reflexivity.
    + vm_compute. reflexivity.
  - refine (proj1 (proj2 (proj2 (proj2 (proj2 (C2_soft_failure (mk false 100 0) LONG
      [("atr", PyStr "2.5"); ("swingHigh", PyInt 110); ("swingLow", PyNone)]
      None None)))))
      TypeError (mk false 25 (-1)) (mk false 110 0) _ _ _ _).
    + left. reflexivity.
    + vm_compute. reflexivity.
    + vm_compute. reflexivity.
    + vm_compute. reflexivity.
Defined.

(** ** Decimals as rationals *)

Section Values.

Lemma scaled_shift (x : Decimal) (e e' : Z) :
  e' <= e -> e <= expo x -> scaled x e' = scaled x e * 10 ^ (e - e').
Proof.
  intros H1 H2. unfold scaled. rewrite <- Z.mul_assoc, <- Z.pow_add_r by lia.
  f_equal. f_equal. lia.
Qed.

Lemma cmp_scaled (a b : Decimal) (e : Z) :
  e <= expo a -> e <= expo b -> cmp a b = (scaled a e ?= scaled b e).
Proof.
  intros Ha Hb. unfold cmp. fold (scaled a (Z.min (expo a) (expo b))).
  fold (scaled b (Z.min (expo a) (expo b))).
  rewrite (scaled_shift a (Z.min (expo a) (expo b)) e) by lia.
  rewrite (scaled_shift b (Z.min (expo a) (expo b)) e) by lia.
  apply Zmult_compare_compat_r. apply Z.lt_gt, pow10_pos. lia.
Qed.

Lemma Zpos_pow10 (k : Z) : 0 <= k -> Z.pos (Z.to_pos (10 ^ k)) = 10 ^ k.
Proof. intros H. apply Z2Pos.id. apply pow10_pos. assumption. Qed.

Lemma value_scaled (x : Decimal) (e : Z) :
  e <= expo x -> e <= 0 ->
  (value x == Qmake (scaled x e) (Z.to_pos (10 ^ (- e))))%Q.
Proof.
  intros H1 H2. unfold value, scaled, Qeq.
  destruct (Z.leb_spec 0 (expo x)) as [Hx|Hx]; cbn [Qnum Qden inject_Z].
  - rewrite Zpos_pow10 by lia.
    replace (10 ^ (expo x - e)) with (10 ^ expo x * 10 ^ (- e))
      by (rewrite <- Z.pow_add_r by lia; f_equal; lia).
    ring.
  - rewrite !Zpos_pow10 by lia.
    replace (10 ^ (- e)) with (10 ^ (expo x - e) * 10 ^ (- expo x))
      by (rewrite <- Z.pow_add_r by lia; f_equal; lia).
    ring.
Qed.

Lemma Qcompare_same_den (n m : Z) (p : positive) :
  (Qmake n p ?= Qmake m p)%Q = (n ?= m).
Proof.
  unfold Qcompare. cbn [Qnum Qden]. symmetry.
  apply Zmult_compare_compat_r. reflexivity.
Qed.

Lemma cmp_value (a b : Decimal) : cmp a b = (value a ?= value b)%Q.
Proof.
  set (e := Z.min (Z.min (expo a) (expo b)) 0).
  rewrite (cmp_scaled a b e) by lia.
  rewrite (value_scaled a e), (value_scaled b e) by lia.
  symmetry. apply Qcompare_same_den.
Qed.

Lemma deq_value (a b : Decimal) : deq a b <-> (value a == value b)%Q.
Proof. unfold deq. rewrite cmp_value. symmetry. apply Qeq_alt. Qed.

Lemma ltb_value (a b : Decimal) : ltb a b = true <-> (value a < value b)%Q.
Proof.
  unfold ltb. rewrite cmp_value, Qlt_alt.
  destruct (value a ?= value b)%Q; split; congruence.
Qed.

Lemma leb_value (a b : Decimal) : leb a b = true <-> (value a <= value b)%Q.
Proof.
  unfold leb. rewrite cmp_value, Qle_alt.
  destruct (value a ?= value b)%Q; split; congruence.
Qed.

Lemma value_zero : (value zero == 0)%Q.
Proof. reflexivity. Qed.


Lemma deq_refl (a : Decimal) : deq a a.
Proof. apply deq_value. reflexivity. Qed.

Lemma deq_sym (a b : Decimal) : deq a b -> deq b a.
Proof. rewrite !deq_value. intros H. symmetry. exact H. Qed.

Lemma deq_trans (a b c : Decimal) : deq a b -> deq b c -> deq a c.
Proof. rewrite !deq_value. intros H1 H2. rewrite H1. exact H2. Qed.

End Values.

(** ** The exact operations *)

Section ExactOperations.

Lemma ten_nonzero : ~ (inject_Z 10 == 0)%Q.
Proof. discriminate. Qed.

Lemma value_pow (x : Decimal) :
  (value x == inject_Z (sval x) * inject_Z 10 ^ expo x)%Q.
Proof.
  unfold value. destruct (Z.leb_spec 0 (expo x)) as [Hx|Hx].
  - rewrite inject_Z_mult, Zpower_Qpower by assumption. reflexivity.
  - rewrite Qmake_Qdiv, Zpos_pow10 by lia.
    rewrite Zpower_Qpower by lia.
    assert (E : (inject_Z 10 ^ expo x == / inject_Z 10 ^ (- expo x))%Q).
    { rewrite <- Qpower_opp, Z.opp_involutive. reflexivity. }
    rewrite E. reflexivity.
Qed.

Lemma mul_is_dfix (a b : Decimal) : mul a b = dfix (mul_exact a b).
Proof. reflexivity. Qed.

Lemma add_is_dfix (a b : Decimal) : add a b = dfix (add_exact a b).
Proof. reflexivity. Qed.

Lemma sval_mul_exact (a b : Decimal) :
  sval (mul_exact a b) = sval a * sval b.
Proof.
  unfold sval, mul_exact; cbn [sign coef].
  destruct (sign a), (sign b); cbn [xorb]; lia.
Qed.

Lemma sval_add_exact (a b : Decimal) :
  sval (add_exact a b)
  = scaled a (Z.min (expo a) (expo b)) + scaled b (Z.min (expo a) (expo b)).
Proof.
  unfold sval at 1, add_exact, scaled; cbn [sign coef].
  set (z := sval a * _ + sval b * _).
  destruct (Z.eqb_spec z 0) as [E|E].
  - rewrite E. destruct (sign a && sign b); reflexivity.
  - destruct (Z.ltb_spec z 0); lia.
Qed.

Lemma value_mul_exact (a b : Decimal) :
  (value (mul_exact a b) == value a * value b)%Q.
Proof.
  rewrite !value_pow, sval_mul_exact. cbn [expo mul_exact].
  rewrite inject_Z_mult, Qpower_plus by apply ten_nonzero. ring.
Qed.

Lemma inject_scaled (x : Decimal) (e : Z) :
  e <= expo x ->
  (inject_Z (scaled x e) * inject_Z 10 ^ e == value x)%Q.
Proof.
  intros H. unfold scaled. rewrite value_pow, inject_Z_mult.
  rewrite Zpower_Qpower by lia.
  assert (E : (inject_Z 10 ^ expo x
               == inject_Z 10 ^ (expo x - e) * inject_Z 10 ^ e)%Q).
  { rewrite <- Qpower_plus by apply ten_nonzero.
    replace (expo x - e + e)%Z with (expo x) by lia. reflexivity. }
  rewrite E. ring.
Qed.

Lemma value_add_exact (a b : Decimal) :
  (value (add_exact a b) == value a + value b)%Q.
Proof.
  rewrite (value_pow (add_exact a b)), sval_add_exact.
  cbn [expo add_exact]. rewrite inject_Z_plus, Qmult_plus_distr_l.
  rewrite !inject_scaled by lia. reflexivity.
Qed.

Lemma value_neg (a : Decimal) : (value (neg a) == - value a)%Q.
Proof.
  rewrite !value_pow. cbn [expo neg].
  replace (sval (neg a)) with (- sval a)%Z.
  - rewrite inject_Z_opp. ring.
  - unfold sval, neg; cbn [sign coef]. destruct (sign a); cbn [negb]; lia.
Qed.

Lemma add_exact_wf (a b : Decimal) : wf (add_exact a b).
Proof. unfold wf, add_exact; cbn [coef]. lia. Qed.

Lemma mul_exact_wf (a b : Decimal) : wf a -> wf b -> wf (mul_exact a b).
Proof. unfold wf, mul_exact; cbn [coef]. nia. Qed.

Lemma neg_wf (a : Decimal) : wf a -> wf (neg a).
Proof. unfold wf, neg; cbn [coef]. auto. Qed.

End ExactOperations.

(** ** Rounding against the decimals of 50 digits *)

Section RoundingOrder.

Lemma round_half_even_exact (c d : Z) :
  0 <= d -> c mod 10 ^ d = 0 -> round_half_even c d = c / 10 ^ d.
Proof.
  intros Hd Hr. unfold round_half_even. rewrite Hr.
  pose proof (pow10_pos d Hd) as P.
  destruct (Z.gtb_spec (2 * 0) (10 ^ d)); [lia|].
  destruct (Z.eqb_spec (2 * 0) (10 ^ d)); [lia|]. reflexivity.
Qed.

Lemma round_half_even_ceil (c d : Z) :
  0 <= d ->
  round_half_even c d
  <= c / 10 ^ d + (if c mod 10 ^ d =? 0 then 0 else 1).
Proof.
  intros Hd. destruct (Z.eqb_spec (c mod 10 ^ d) 0) as [E|E].
  - rewrite round_half_even_exact by assumption. lia.
  - apply round_half_even_bounds. assumption.
Qed.

Lemma ndigits_pow10 (k : Z) : 0 <= k -> ndigits (10 ^ k) = k + 1.
Proof.
  intros Hk. apply ndigits_unique; [apply pow10_pos; assumption|].
  replace (k + 1 - 1) with k by lia. split; [lia | apply pow10_lt; lia].
Qed.

(** The shape of a rounded result. *)
Lemma dfix_rounded (x : Decimal) :
  0 < coef x -> prec < ndigits (coef x) ->
  expo x + (ndigits (coef x) - prec) <= expo (dfix x)
  /\ coef (dfix x) * 10 ^ (expo (dfix x) - (expo x + (ndigits (coef x) - prec)))
     = round_half_even (coef x) (ndigits (coef x) - prec)
  /\ ndigits (coef (dfix x)) = prec.
Proof.
  intros Hc Hn. unfold dfix.
  destruct (Z.eqb_spec (coef x) 0) as [|_]; [lia|]. cbn [orb].
  destruct (Z.leb_spec (ndigits (coef x)) prec) as [|_]; [lia|].
  pose proof (round_half_even_range (coef x) Hc Hn) as [Rlo Rhi].
  set (d := ndigits (coef x) - prec) in *.
  set (c := round_half_even (coef x) d) in *.
  assert (P49 : 0 < 10 ^ (prec - 1)) by (apply pow10_pos; unfold prec; lia).
  assert (Hcpos : 0 < c) by lia.
  destruct (ndigits c >? prec) eqn:E; cbn [coef expo].
  - apply Z.gtb_lt in E.
    assert (Hge : 10 ^ prec <= c).
    { destruct (Z_lt_le_dec c (10 ^ prec)) as [Hlt|]; [|assumption].
      apply (ndigits_le_iff c prec Hcpos) in Hlt; [lia | unfold prec; lia]. }
    assert (Ec : c = 10 ^ prec) by lia.
    assert (Ediv : c / 10 = 10 ^ (prec - 1)).
    { rewrite Ec. change (10 ^ prec) with (10 ^ (prec - 1) * 10).
      apply Z.div_mul. lia. }
    rewrite Ediv.
    split; [lia|]. split.
    + replace (expo x + d + 1 - (expo x + d)) with 1 by lia.
      rewrite Ec. reflexivity.
    + rewrite ndigits_pow10 by (unfold prec; lia). lia.
  - split; [lia|]. split.
    + replace (expo x + d - (expo x + d)) with 0 by lia. simpl. lia.
    + apply ndigits_unique; [assumption|]. split; [assumption|].
      rewrite Z.gtb_ltb in E. apply Z.ltb_ge in E.
      apply (ndigits_le_iff c prec Hcpos); [unfold prec; lia | assumption].
Qed.

(** No decimal of at most 50 digits lies strictly between a number and
    that number truncated to 50 digits... *)
Lemma floor_repr (c e ct et : Z) :
  0 < c -> prec < ndigits c -> 0 < ct -> ct < 10 ^ prec ->
  ct * 10 ^ (et - Z.min et e) <= c * 10 ^ (e - Z.min et e) ->
  ct * 10 ^ (et - Z.min et e)
  <= c / 10 ^ (ndigits c - prec) * 10 ^ (e + (ndigits c - prec) - Z.min et e).
Proof.
  intros Hc Hn Hct Hlt Hle.
  pose proof (ndigits_spec c Hc) as [Dlo _].
  set (d := ndigits c - prec) in *.
  assert (Hd : 0 < d) by (unfold d; lia).
  pose proof (div_pow10_lower c (ndigits c - 1) d ltac:(lia)
                ltac:(unfold d, prec; lia) Dlo) as Hq.
  replace (ndigits c - 1 - d) with (prec - 1) in Hq by (unfold d; lia).
  set (q := c / 10 ^ d) in *.
  destruct (Z_le_gt_dec (e + d) et) as [Hge|Hlt'].
  - replace (Z.min et e) with e in * by lia.
    replace (e - e) with 0 in Hle by lia. rewrite Z.pow_0_r, Z.mul_1_r in Hle.
    replace (et - e) with ((et - (e + d)) + d) in * by lia.
    replace (e + d - e) with d by lia.
    rewrite Z.pow_add_r in * by lia.
    pose proof (pow10_pos d ltac:(lia)) as Pd.
    pose proof (pow10_pos (et - (e + d)) ltac:(lia)) as Pk.
    assert (ct * 10 ^ (et - (e + d)) <= q).
    { apply Z.div_le_lower_bound; [assumption|]. lia. }
    nia.
  - set (m := Z.min et e) in *.
    pose proof (pow10_pos (et - m) ltac:(lia)) as Pm.
    assert (E1 : 10 ^ (e + d - m) = 10 ^ (e + d - et) * 10 ^ (et - m)).
    { rewrite <- Z.pow_add_r by lia. f_equal. lia. }
    assert (E2 : 10 ^ prec <= 10 ^ (prec - 1) * 10 ^ (e + d - et)).
    { rewrite <- Z.pow_add_r by (unfold prec; lia). apply pow10_le.
      unfold prec. lia. }
    rewrite E1.
    assert (10 ^ prec <= q * 10 ^ (e + d - et)).
    { pose proof (pow10_pos (e + d - et) ltac:(lia)). nia. }
    nia.
Qed.

(** ... nor strictly between the number and the next multiple of the
    rounding unit. *)
Lemma ceil_repr (c e ct et : Z) :
  0 < c -> prec < ndigits c -> 0 < ct -> ct < 10 ^ prec ->
  c * 10 ^ (e - Z.min et e) <= ct * 10 ^ (et - Z.min et e) ->
  (c / 10 ^ (ndigits c - prec)
   + (if c mod 10 ^ (ndigits c - prec) =? 0 then 0 else 1))
  * 10 ^ (e + (ndigits c - prec) - Z.min et e)
  <= ct * 10 ^ (et - Z.min et e).
Proof.
  intros Hc Hn Hct Hlt Hle.
  pose proof (ndigits_spec c Hc) as [Dlo _].
  set (d := ndigits c - prec) in *.
  assert (Hd : 0 < d) by (unfold d; lia).
  pose proof (div_pow10_lower c (ndigits c - 1) d ltac:(lia)
                ltac:(unfold d, prec; lia) Dlo) as Hq.
  replace (ndigits c - 1 - d) with (prec - 1) in Hq by (unfold d; lia).
  pose proof (pow10_pos d ltac:(lia)) as Pd.
  pose proof (Z.div_mod c (10 ^ d) ltac:(lia)) as Hdm.
  pose proof (Z.mod_pos_bound c (10 ^ d) Pd) as Hr.
  set (q := c / 10 ^ d) in *. set (r := c mod 10 ^ d) in *.
  destruct (Z_le_gt_dec (e + d) et) as [Hge|Hlt'].
  - replace (Z.min et e) with e in * by lia.
    replace (e - e) with 0 in Hle by lia. rewrite Z.pow_0_r, Z.mul_1_r in Hle.
    replace (et - e) with ((et - (e + d)) + d) in * by lia.
    replace (e + d - e) with d by lia.
    rewrite Z.pow_add_r in * by lia.
    pose proof (pow10_pos (et - (e + d)) ltac:(lia)) as Pk.
    set (k := ct * 10 ^ (et - (e + d))).
    assert (Hk : c <= k * 10 ^ d) by (unfold k; lia).
    replace (ct * (10 ^ (et - (e + d)) * 10 ^ d)) with (k * 10 ^ d)
      by (unfold k; ring).
    apply Z.mul_le_mono_nonneg_r; [lia|].
    destruct (Z.eqb_spec r 0) as [E|E].
    + assert (q <= k) by nia. lia.
    + assert (q < k) by nia. lia.
  - exfalso. set (m := Z.min et e) in *.
    pose proof (pow10_pos (et - m) ltac:(lia)) as Pm.
    pose proof (pow10_pos (e - m) ltac:(lia)) as Pe.
    pose proof (pow10_pos (e + d - et) ltac:(lia)) as Pt.
    assert (E2 : 10 ^ prec <= 10 ^ (prec - 1) * 10 ^ (e + d - et)).
    { rewrite <- Z.pow_add_r by (unfold prec; lia). apply pow10_le.
      unfold prec. lia. }
    assert (E3 : 10 ^ (e + d - et) * 10 ^ (et - m) = 10 ^ d * 10 ^ (e - m)).
    { rewrite <- !Z.pow_add_r by lia. f_equal. lia. }
    assert (H1 : ct * 10 ^ (et - m) < q * 10 ^ (e + d - et) * 10 ^ (et - m)) by nia.
    assert (H2 : q * 10 ^ (e + d - et) * 10 ^ (et - m) <= c * 10 ^ (e - m)).
    { rewrite <- Z.mul_assoc, E3. nia. }
    lia.
Qed.

End RoundingOrder.

Section RoundingValues.

Lemma value_le_scaled (a b : Decimal) (m : Z) :
  m <= expo a -> m <= expo b ->
  ((value a <= value b)%Q <-> scaled a m <= scaled b m).
Proof.
  intros Ha Hb. rewrite <- leb_value. unfold leb.
  rewrite (cmp_scaled a b m Ha Hb).
  destruct (Z.compare_spec (scaled a m) (scaled b m)); split; intros; try lia;
    try reflexivity; discriminate.
Qed.

Lemma dfix_neg (x : Decimal) : dfix (neg x) = neg (dfix x).
Proof.
  unfold dfix, neg; cbn [coef sign expo].
  destruct ((coef x =? 0) || (ndigits (coef x) <=? prec)); [reflexivity|].
  destruct (ndigits _ >? prec); reflexivity.
Qed.

Lemma dfix_small (x : Decimal) :
  coef x = 0 \/ ndigits (coef x) <= prec -> dfix x = x.
Proof.
  intros H. unfold dfix.
  destruct (Z.eqb_spec (coef x) 0); [reflexivity|]. cbn [orb].
  destruct (Z.leb_spec (ndigits (coef x)) prec); [reflexivity | lia].
Qed.

(** Rounding does not cross a decimal of at most 50 digits: from below... *)
Lemma dfix_le_repr (x t : Decimal) :
  wf x -> wf t -> ndigits (coef t) <= prec ->
  (value t <= value x)%Q -> (value t <= value (dfix x))%Q.
Proof.
  intros Wx Wt Ht Hle.
  destruct (Z.eq_dec (coef x) 0) as [E0|N0].
  { rewrite dfix_small by (left; assumption). assumption. }
  destruct (Z_le_gt_dec (ndigits (coef x)) prec) as [Hs|Hn].
  { rewrite dfix_small by (right; assumption). assumption. }
  assert (Hc : 0 < coef x) by (unfold wf in Wx; lia).
  destruct (dfix_rounded x Hc ltac:(lia)) as (He & Hco & _).
  pose proof (dfix_sign x) as Hsg.
  set (d := ndigits (coef x) - prec) in *.
  set (m := Z.min (expo t) (expo x)).
  assert (Hd : 0 < d) by (unfold d; lia).
  apply (value_le_scaled t x m) in Hle; [| unfold m; lia | unfold m; lia].
  apply (value_le_scaled t (dfix x) m); [unfold m; lia | unfold m; lia |].
  pose proof (pow10_pos (expo t - m) ltac:(unfold m; lia)) as Pt.
  pose proof (pow10_pos (expo x - m) ltac:(unfold m; lia)) as Px.
  pose proof (pow10_pos (expo x + d - m) ltac:(unfold m; lia)) as PE.
  assert (Esc : scaled (dfix x) m
                = (if sign x then -1 else 1)
                  * (round_half_even (coef x) d * 10 ^ (expo x + d - m))).
  { unfold scaled, sval. rewrite Hsg, <- Hco.
    replace (expo (dfix x) - m)
      with ((expo (dfix x) - (expo x + d)) + (expo x + d - m)) by lia.
    rewrite Z.pow_add_r by (unfold m; lia).
    destruct (sign x); ring. }
  rewrite Esc.
  pose proof (round_half_even_bounds (coef x) d ltac:(lia)) as [Rlo _].
  pose proof (round_half_even_ceil (coef x) d ltac:(lia)) as Rhi.
  unfold scaled in Hle |- *.
  assert (Sx' : sval x = if sign x then - coef x else coef x) by reflexivity.
  rewrite Sx' in Hle. clear Sx'.
  assert (Pcx : 0 < coef x * 10 ^ (expo x - m)) by (apply Z.mul_pos_pos; lia).
  set (A := 10 ^ (expo t - m)) in *. set (B := 10 ^ (expo x - m)) in *.
  set (C := 10 ^ (expo x + d - m)) in *.
  set (rh := round_half_even (coef x) d) in *.
  destruct (sign x) eqn:Sx.
  - (* x negative *)
    assert (St : sval t < 0).
    { destruct (Z_lt_le_dec (sval t) 0); [assumption|].
      assert (0 <= sval t * A) by (apply Z.mul_nonneg_nonneg; lia). lia. }
    apply (sval_neg_iff t Wt) in St. destruct St as [St Ct].
    unfold sval in Hle |- *. rewrite St in *.
    assert (Hlt : coef t < 10 ^ prec)
      by (apply (ndigits_le_iff (coef t) prec Ct); [unfold prec; lia | assumption]).
    pose proof (ceil_repr (coef x) (expo x) (coef t) (expo t) Hc ltac:(lia) Ct Hlt
                  ltac:(fold m; fold A; fold B; lia)) as Hceil.
    fold d in Hceil. fold m in Hceil. fold A in Hceil. fold C in Hceil.
    assert (rh * C <= coef t * A).
    { eapply Z.le_trans; [|exact Hceil].
      apply Z.mul_le_mono_nonneg_r; [lia|]. exact Rhi. }
    lia.
  - (* x positive *)
    assert (Hrh : 0 <= rh * C).
    { apply Z.mul_nonneg_nonneg; [|lia].
      pose proof (Z.div_pos (coef x) (10 ^ d) ltac:(lia)
                    ltac:(apply pow10_pos; lia)). lia. }
    destruct (Z_le_gt_dec (sval t) 0) as [Hneg|Hpos].
    + assert (sval t * A <= 0) by (apply Z.mul_nonpos_nonneg; lia). lia.
    + apply Z.gt_lt in Hpos.
      apply (sval_pos_iff t Wt) in Hpos. destruct Hpos as [St Ct].
      unfold sval in Hle |- *. rewrite St in *.
      assert (Hlt : coef t < 10 ^ prec)
        by (apply (ndigits_le_iff (coef t) prec Ct); [unfold prec; lia | assumption]).
      pose proof (floor_repr (coef x) (expo x) (coef t) (expo t) Hc ltac:(lia) Ct Hlt
                    ltac:(fold m; fold A; fold B; lia)) as Hfloor.
      fold d in Hfloor. fold m in Hfloor. fold A in Hfloor. fold C in Hfloor.
      assert (coef (x) / 10 ^ d * C <= rh * C).
      { apply Z.mul_le_mono_nonneg_r; [lia|]. exact Rlo. }
      lia.
Qed.

(** ... and from above. *)
Lemma dfix_ge_repr (x t : Decimal) :
  wf x -> wf t -> ndigits (coef t) <= prec ->
  (value x <= value t)%Q -> (value (dfix x) <= value t)%Q.
Proof.
  intros Wx Wt Ht Hle.
  assert (H : (value (neg t) <= value (dfix (neg x)))%Q).
  { apply dfix_le_repr; try (apply neg_wf; assumption); [exact Ht|].
    rewrite !value_neg. apply Qopp_le_compat. exact Hle. }
  rewrite dfix_neg, !value_neg in H.
  apply Qopp_le_compat in H. rewrite !Qopp_involutive in H. exact H.
Qed.

(** A number some decimal of 50 digits denotes is not changed by rounding. *)
Lemma dfix_exact (x : Decimal) :
  wf x -> representable (value x) -> (value (dfix x) == value x)%Q.
Proof.
  intros Wx (t & Wt & Ht & Et).
  apply Qle_antisym.
  - rewrite <- Et. apply dfix_ge_repr; try assumption. rewrite Et. apply Qle_refl.
  - rewrite <- Et at 1. apply dfix_le_repr; try assumption. rewrite Et. apply Qle_refl.
Qed.

Lemma dfix_ndigits (x : Decimal) : wf x -> ndigits (coef (dfix x)) <= prec.
Proof.
  intros Wx.
  destruct (Z.eq_dec (coef x) 0) as [E0|N0].
  { rewrite dfix_small by (left; assumption). rewrite E0. vm_compute. discriminate. }
  destruct (Z_le_gt_dec (ndigits (coef x)) prec) as [Hs|Hn].
  { rewrite dfix_small by (right; assumption). assumption. }
  destruct (dfix_rounded x ltac:(unfold wf in Wx; lia) ltac:(lia)) as (_ & _ & ->).
  lia.
Qed.

End RoundingValues.

(** ** Operations whose exact result has 50 digits *)

Section ExactResults.

Lemma representable_comp (p q : Q) :
  (p == q)%Q -> representable p -> representable q.
Proof.
  intros E (t & Wt & Ht & Et). exists t. split; [|split]; [assumption..|].
  rewrite Et. exact E.
Qed.



Lemma add_value_exact (a b : Decimal) :
  representable (value a + value b) ->
  (value (add a b) == value a + value b)%Q.
Proof.
  intros R. rewrite add_is_dfix, <- value_add_exact.
  apply dfix_exact; [apply add_exact_wf|].
  apply (representable_comp (value a + value b)); [|assumption].
  symmetry. apply value_add_exact.
Qed.

Lemma sub_value_exact (a b : Decimal) :
  representable (value a - value b) ->
  (value (sub a b) == value a - value b)%Q.
Proof.
  intros R. unfold sub.
  assert (E : (value a + value (neg b) == value a - value b)%Q)
    by (rewrite value_neg; reflexivity).
  rewrite add_value_exact; [exact E|].
  apply (representable_comp (value a - value b)); [symmetry; exact E | exact R].
Qed.

(** Rounded sums against a decimal of 50 digits. *)
Lemma add_ge_repr (a b t : Decimal) :
  wf t -> ndigits (coef t) <= prec ->
  (value t <= value a + value b)%Q -> (value t <= value (add a b))%Q.
Proof.
  intros Wt Ht H. rewrite add_is_dfix.
  apply dfix_le_repr; try assumption; [apply add_exact_wf|].
  rewrite value_add_exact. exact H.
Qed.

Lemma add_le_repr (a b t : Decimal) :
  wf t -> ndigits (coef t) <= prec ->
  (value a + value b <= value t)%Q -> (value (add a b) <= value t)%Q.
Proof.
  intros Wt Ht H. rewrite add_is_dfix.
  apply dfix_ge_repr; try assumption; [apply add_exact_wf|].
  rewrite value_add_exact. exact H.
Qed.

Lemma sub_ge_repr (a b t : Decimal) :
  wf t -> ndigits (coef t) <= prec ->
  (value t <= value a - value b)%Q -> (value t <= value (sub a b))%Q.
Proof.
  intros Wt Ht H. unfold sub. apply add_ge_repr; try assumption.
  rewrite value_neg. exact H.
Qed.

Lemma sub_le_repr (a b t : Decimal) :
  wf t -> ndigits (coef t) <= prec ->
  (value a - value b <= value t)%Q -> (value (sub a b) <= value t)%Q.
Proof.
  intros Wt Ht H. unfold sub. apply add_le_repr; try assumption.
  rewrite value_neg. exact H.
Qed.

Lemma strip_zeros_spec (fuel : nat) :
  forall c e ideal,
    e <= snd (strip_zeros fuel c e ideal)
    /\ fst (strip_zeros fuel c e ideal)
       * 10 ^ (snd (strip_zeros fuel c e ideal) - e) = c.
Proof.
  induction fuel as [|f IH]; intros c e ideal; cbn [strip_zeros].
  - cbn [fst snd]. replace (e - e) with 0 by lia. split; [lia | simpl; lia].
  - destruct (e <? ideal); cbn [andb].
    2:{ cbn [fst snd]. replace (e - e) with 0 by lia. split; [lia | simpl; lia]. }
    destruct (Z.eqb_spec (c mod 10) 0) as [E|_].
    2:{ cbn [fst snd]. replace (e - e) with 0 by lia. split; [lia | simpl; lia]. }
    destruct (IH (c / 10) (e + 1) ideal) as [H1 H2].
    split; [lia|].
    replace (snd (strip_zeros f (c / 10) (e + 1) ideal) - e)
      with ((snd (strip_zeros f (c / 10) (e + 1) ideal) - (e + 1)) + 1) by lia.
    rewrite Z.pow_add_r by lia. rewrite Z.mul_assoc, H2.
    pose proof (Z.div_mod c 10 ltac:(lia)). simpl (10 ^ 1). lia.
Qed.

Lemma value_mk_pad (s : bool) (c e k : Z) :
  0 <= k -> (value (mk s (c * 10 ^ k) e) == value (mk s c (e + k)))%Q.
Proof.
  intros Hk. rewrite !value_pow. cbn [expo].
  replace (sval (mk s (c * 10 ^ k) e)) with (sval (mk s c (e + k)) * 10 ^ k)%Z
    by (unfold sval; cbn [sign coef]; destruct s; ring).
  rewrite inject_Z_mult, Zpower_Qpower by assumption.
  rewrite Qpower_plus by apply ten_nonzero. ring.
Qed.

Lemma strip_zeros_value (s : bool) (fuel : nat) (c e ideal : Z) :
  (value (mk s (fst (strip_zeros fuel c e ideal))
               (snd (strip_zeros fuel c e ideal)))
   == value (mk s c e))%Q.
Proof.
  destruct (strip_zeros_spec fuel c e ideal) as [H1 H2].
  rewrite <- H2 at 3. rewrite value_mk_pad by lia.
  replace (e + (snd (strip_zeros fuel c e ideal) - e))
    with (snd (strip_zeros fuel c e ideal)) by lia.
  reflexivity.
Qed.

End ExactResults.

(** ** Exact quotients *)

Section ExactQuotients.

Lemma div_is_dfix (a b : Decimal) :
  coef a <> 0 -> coef b <> 0 -> div a b = Return (dfix (div_raw a b)).
Proof.
  intros Ha Hb. unfold div, div_raw.
  destruct (Z.eqb_spec (coef b) 0) as [|_]; [contradiction|].
  destruct (Z.eqb_spec (coef a) 0) as [|_]; [contradiction|].
  fold (div_num a b). fold (div_den a b).
  destruct (div_num a b mod div_den a b =? 0); [|reflexivity].
  match goal with |- context [strip_zeros ?f ?c ?e ?i] =>
    destruct (strip_zeros f c e i) as [c' e'] end.
  reflexivity.
Qed.

Lemma quot_is_dfix (a b : Decimal) :
  coef a <> 0 -> coef b <> 0 -> quot a b = dfix (div_raw a b).
Proof. intros Ha Hb. unfold quot. rewrite div_is_dfix by assumption. reflexivity. Qed.

Lemma quot_zero_l (a b : Decimal) :
  coef a = 0 -> coef b <> 0 ->
  quot a b = mk (xorb (sign a) (sign b)) 0 (expo a - expo b).
Proof.
  intros Ha Hb. unfold quot, div. rewrite Ha.
  destruct (Z.eqb_spec (coef b) 0) as [|_]; [contradiction|].
  cbn [Z.eqb]. apply dfix_coef_zero. reflexivity.
Qed.

Lemma value_coef_zero (x : Decimal) : coef x = 0 -> (value x == 0)%Q.
Proof.
  intros H. rewrite value_pow. apply sval_zero_iff in H. rewrite H. ring.
Qed.

Lemma value_nonzero (x : Decimal) : coef x <> 0 -> ~ (value x == 0)%Q.
Proof.
  intros H E. rewrite value_pow in E.
  apply Qmult_integral in E. destruct E as [E|E].
  - apply H, sval_zero_iff.
    unfold Qeq in E. cbn [Qnum Qden inject_Z] in E. lia.
  - revert E. apply Qpower_not_0, ten_nonzero.
Qed.

Lemma mk_eta (x : Decimal) : x = mk (sign x) (coef x) (expo x).
Proof. destruct x; reflexivity. Qed.

(** When the integer division leaves no remainder the quotient before
    rounding is the exact quotient. *)
Lemma div_raw_times (a b : Decimal) :
  0 < coef a -> 0 < coef b -> div_num a b mod div_den a b = 0 ->
  (value (div_raw a b) * value b == value a)%Q.
Proof.
  intros Ha Hb Hr. unfold div_raw. rewrite Hr. cbn [Z.eqb].
  rewrite strip_zeros_value.
  pose proof (div_den_pos a b Hb) as Dp.
  pose proof (Z.div_mod (div_num a b) (div_den a b) ltac:(lia)) as Hdm.
  rewrite Hr, Z.add_0_r in Hdm.
  set (q := div_num a b / div_den a b) in *.
  set (shift := ndigits (coef b) - ndigits (coef a) + prec + 1).
  rewrite <- value_mul_exact. unfold mul_exact; cbn [sign coef expo].
  replace (xorb (xorb (sign a) (sign b)) (sign b)) with (sign a)
    by (destruct (sign a), (sign b); reflexivity).
  unfold div_num, div_den in Hdm. fold shift in Hdm.
  destruct (Z.leb_spec 0 shift) as [Hs|Hs].
  - replace (q * coef b) with (coef a * 10 ^ shift) by lia.
    rewrite value_mk_pad by assumption.
    replace (expo a - expo b - shift + expo b + shift) with (expo a) by lia.
    rewrite <- mk_eta. reflexivity.
  - transitivity (value (mk (sign a) (q * coef b * 10 ^ (- shift)) (expo a))).
    + rewrite value_mk_pad by lia.
      replace (expo a + - shift) with (expo a - expo b - shift + expo b) by lia.
      reflexivity.
    + replace (q * coef b * 10 ^ (- shift)) with (coef a) by lia.
      rewrite <- mk_eta. reflexivity.
Qed.

Lemma div_raw_exact (a b : Decimal) :
  0 < coef a -> 0 < coef b -> div_num a b mod div_den a b = 0 ->
  (value (div_raw a b) == value a / value b)%Q.
Proof.
  intros Ha Hb Hr. rewrite <- (div_raw_times a b Ha Hb Hr).
  field. apply value_nonzero. lia.
Qed.


End ExactQuotients.

Section ExactQuotients2.


Lemma deq_scaled (a b : Decimal) (m : Z) :
  m <= expo a -> m <= expo b -> (deq a b <-> scaled a m = scaled b m).
Proof.
  intros Ha Hb. unfold deq. rewrite (cmp_scaled a b m Ha Hb).
  apply Z.compare_eq_iff.
Qed.



End ExactQuotients2.

#[global] Instance representable_proper : Proper (Qeq ==> iff) representable.
Proof.
  intros p q E. split; apply representable_comp; [exact E | symmetry; exact E].
Qed.

Section ExactPrices.

Lemma quot_wf (a b : Decimal) : wf a -> wf b -> coef b <> 0 -> wf (quot a b).
Proof.
  intros Wa Wb Hb. apply (div_wf a b); try assumption. apply div_quot. assumption.
Qed.






End ExactPrices.

Section ExactTargets.




Lemma tp2_factor_wf (tp1 : Decimal) (tp2 : option Decimal) :
  wf tp1 -> (forall t, tp2 = Some t -> wf t) -> wf (tp2_factor tp1 tp2).
Proof.
  intros W1 W2.
  assert (W100 : wf D100) by (unfold wf; simpl; lia).
  assert (WD : wf (mul (quot tp1 D100) D2)).
  { apply mul_wf; [|unfold wf; simpl; lia].
    apply quot_wf; [assumption | assumption | apply coef_D100_nonzero]. }
  unfold tp2_factor. destruct tp2 as [t|]; [|exact WD].
  destruct (truthy_and_positive (Some t)); [|exact WD].
  apply quot_wf; [apply W2; reflexivity | assumption | apply coef_D100_nonzero].
Qed.

End ExactTargets.

(** ** The percentage targets *)




(** ** Position size, then quantity *)



(** The scenario of the specification: 100 at leverage 5 is 500, and 500
    at price 25000 is the quantity 0.02. *)
Lemma size_then_quantity_example :
  calculate_position_size_usdt (of_int 100) 5 = Return (of_int 500)
  /\ calculate_quantity_from_usdt (of_int 500) (of_int 25000)
     = Return (mk false 2 (-2)).
Proof. split; vm_compute; reflexivity. Qed.

(** ** Operations respect numeric equality *)

Section Congruence.

Lemma dfix_value_rounded (x : Decimal) :
  0 < coef x -> prec < ndigits (coef x) ->
  (value (dfix x)
   == value (mk (sign x)
                (round_half_even (coef x) (ndigits (coef x) - prec))
                (expo x + (ndigits (coef x) - prec))))%Q.
Proof.
  intros Hc Hn. destruct (dfix_rounded x Hc Hn) as (He & Hco & _).
  rewrite <- Hco. rewrite value_mk_pad by lia.
  rewrite <- (dfix_sign x).
  replace (expo x + (ndigits (coef x) - prec)
           + (expo (dfix x) - (expo x + (ndigits (coef x) - prec))))
    with (expo (dfix x)) by lia.
  rewrite <- mk_eta. reflexivity.
Qed.

Lemma round_half_even_pad (c d k : Z) :
  0 <= c -> 0 <= d -> 0 <= k ->
  round_half_even (c * 10 ^ k) (d + k) = round_half_even c d.
Proof.
  intros Hc Hd Hk. unfold round_half_even.
  pose proof (pow10_pos d Hd) as Pd. pose proof (pow10_pos k Hk) as Pk.
  rewrite Z.pow_add_r by lia.
  rewrite Z.div_mul_cancel_r by lia.
  rewrite Z.mul_mod_distr_r by lia.
  set (r := c mod 10 ^ d). set (q := c / 10 ^ d).
  assert (E1 : (2 * (r * 10 ^ k) >? 10 ^ d * 10 ^ k) = (2 * r >? 10 ^ d)).
  { destruct (Z.gtb_spec (2 * r) (10 ^ d));
      destruct (Z.gtb_spec (2 * (r * 10 ^ k)) (10 ^ d * 10 ^ k)); try reflexivity; nia. }
  assert (E2 : (2 * (r * 10 ^ k) =? 10 ^ d * 10 ^ k) = (2 * r =? 10 ^ d)).
  { destruct (Z.eqb_spec (2 * r) (10 ^ d));
      destruct (Z.eqb_spec (2 * (r * 10 ^ k)) (10 ^ d * 10 ^ k)); try reflexivity; nia. }
  rewrite E1, E2. reflexivity.
Qed.

Lemma round_half_even_zeros (c k d : Z) :
  0 <= d <= k -> round_half_even (c * 10 ^ k) d = c * 10 ^ (k - d).
Proof.
  intros Hd.
  pose proof (pow10_pos d ltac:(lia)) as Pd.
  assert (E : c * 10 ^ k = c * 10 ^ (k - d) * 10 ^ d).
  { rewrite <- Z.mul_assoc, <- Z.pow_add_r by lia. do 2 f_equal. lia. }
  rewrite round_half_even_exact; [| lia |].
  - rewrite E. apply Z.div_mul. lia.
  - rewrite E. apply Z.mod_mul. lia.
Qed.

(** Trailing zeros in the coefficient do not change what rounding gives. *)
Lemma dfix_pad_value (s : bool) (c e k : Z) :
  0 < c -> 0 <= k ->
  (value (dfix (mk s (c * 10 ^ k) (e - k))) == value (dfix (mk s c e)))%Q.
Proof.
  intros Hc Hk.
  pose proof (pow10_pos k Hk) as Pk.
  assert (Hck : 0 < c * 10 ^ k) by (apply Z.mul_pos_pos; lia).
  pose proof (ndigits_pad c k Hc Hk) as Hn.
  pose proof (ndigits_ge_1 c) as H1.
  destruct (Z_le_gt_dec (ndigits c) prec) as [Hs|Hl].
  - rewrite (dfix_small (mk s c e)) by (right; exact Hs).
    destruct (Z_le_gt_dec (ndigits c + k) prec) as [Hs'|Hl'].
    + rewrite dfix_small by (right; cbn [coef]; lia).
      rewrite value_mk_pad by assumption.
      replace (e - k + k) with e by lia. reflexivity.
    + rewrite dfix_value_rounded by (cbn [coef]; lia).
      cbn [coef sign expo]. rewrite Hn.
      rewrite round_half_even_zeros by (unfold prec in *; lia).
      rewrite value_mk_pad by (unfold prec in *; lia).
      replace (e - k + (ndigits c + k - prec) + (k - (ndigits c + k - prec)))
        with e by lia.
      reflexivity.
  - rewrite !dfix_value_rounded by (cbn [coef]; lia).
    cbn [coef sign expo]. rewrite Hn.
    replace (ndigits c + k - prec) with ((ndigits c - prec) + k) by lia.
    rewrite round_half_even_pad by lia.
    replace (e - k + (ndigits c - prec + k)) with (e + (ndigits c - prec)) by lia.
    reflexivity.
Qed.

Lemma deq_zero_coef (x y : Decimal) : deq x y -> coef x = 0 -> coef y = 0.
Proof.
  intros E H. apply deq_value in E. rewrite (value_coef_zero x H) in E.
  destruct (Z.eq_dec (coef y) 0) as [|N]; [assumption|].
  exfalso. apply (value_nonzero y N). symmetry. exact E.
Qed.

(** Two decimals that are numerically equal: the one with the larger
    exponent, padded with zeros, is the other. *)
Lemma deq_pad (x y : Decimal) :
  wf x -> wf y -> deq x y -> 0 < coef x -> expo x <= expo y ->
  sign x = sign y /\ coef x = coef y * 10 ^ (expo y - expo x).
Proof.
  intros Wx Wy E Hx Hle.
  apply (deq_scaled x y (expo x)) in E; [|lia|lia].
  unfold scaled in E. replace (expo x - expo x) with 0 in E by lia.
  rewrite Z.pow_0_r, Z.mul_1_r in E.
  pose proof (pow10_pos (expo y - expo x) ltac:(lia)) as P.
  unfold wf in *. unfold sval in E.
  destruct (sign x), (sign y); split; try reflexivity; try nia.
Qed.

Lemma dfix_deq (x y : Decimal) :
  wf x -> wf y -> deq x y -> deq (dfix x) (dfix y).
Proof.
  assert (Half : forall a b, wf a -> wf b -> deq a b -> 0 < coef a ->
                             expo a <= expo b -> deq (dfix a) (dfix b)).
  { intros a b Wa Wb E Ha Hle.
    destruct (deq_pad a b Wa Wb E Ha Hle) as [Hs Hc].
    assert (Hb : 0 < coef b).
    { unfold wf in Wb. destruct (Z.eq_dec (coef b) 0) as [Z0|]; [|lia].
      rewrite Z0 in Hc. lia. }
    apply deq_value.
    rewrite (mk_eta a), (mk_eta b), Hs, Hc.
    replace (expo a) with (expo b - (expo b - expo a)) at 2 by lia.
    apply dfix_pad_value; [assumption | lia]. }
  intros Wx Wy E.
  destruct (Z.eq_dec (coef x) 0) as [Hx|Hx].
  - pose proof (deq_zero_coef x y E Hx) as Hy.
    rewrite !dfix_small by (left; assumption). exact E.
  - assert (Hx' : 0 < coef x) by (unfold wf in Wx; lia).
    destruct (Z_le_gt_dec (expo x) (expo y)) as [Hle|Hgt].
    + apply Half; assumption.
    + apply deq_sym. apply Half; try assumption; try lia.
      * apply deq_sym. exact E.
      * unfold wf in Wy. destruct (Z.eq_dec (coef y) 0) as [Z0|]; [|lia].
        exfalso. apply Hx. apply (deq_zero_coef y x); [apply deq_sym; exact E | exact Z0].
Qed.

End Congruence.

Section CongruenceOperations.

Lemma mul_deq (a a' b b' : Decimal) :
  wf a -> wf a' -> wf b -> wf b' ->
  deq a a' -> deq b b' -> deq (mul a b) (mul a' b').
Proof.
  intros Wa Wa' Wb Wb' Ea Eb. rewrite !mul_is_dfix.
  apply dfix_deq; try (apply mul_exact_wf; assumption).
  apply deq_value. rewrite !value_mul_exact.
  apply deq_value in Ea, Eb. rewrite Ea, Eb. reflexivity.
Qed.

Lemma add_deq (a a' b b' : Decimal) :
  deq a a' -> deq b b' -> deq (add a b) (add a' b').
Proof.
  intros Ea Eb. rewrite !add_is_dfix.
  apply dfix_deq; try apply add_exact_wf.
  apply deq_value. rewrite !value_add_exact.
  apply deq_value in Ea, Eb. rewrite Ea, Eb. reflexivity.
Qed.

Lemma neg_deq (a a' : Decimal) : deq a a' -> deq (neg a) (neg a').
Proof.
  intros E. apply deq_value. rewrite !value_neg.
  apply deq_value in E. rewrite E. reflexivity.
Qed.

Lemma sub_deq (a a' b b' : Decimal) :
  deq a a' -> deq b b' -> deq (sub a b) (sub a' b').
Proof. intros Ea Eb. unfold sub. apply add_deq; [assumption | apply neg_deq; assumption]. Qed.

Lemma ltb_deq_l (a a' b : Decimal) : deq a a' -> ltb a b = ltb a' b.
Proof.
  intros E. unfold ltb. rewrite !cmp_value.
  apply deq_value in E. rewrite E. reflexivity.
Qed.

Lemma max0_deq (a a' : Decimal) : deq a a' -> deq (max0 a) (max0 a').
Proof.
  intros E. unfold max0. rewrite (ltb_deq_l a a' zero E).
  destruct (ltb a' zero); [apply deq_refl | exact E].
Qed.

Lemma div_raw_wf (a b : Decimal) :
  0 < coef a -> 0 < coef b -> wf (div_raw a b).
Proof.
  intros Ha Hb. unfold wf, div_raw.
  pose proof (div_quot_large a b Ha Hb) as Hq.
  pose proof (pow10_pos prec ltac:(unfold prec; lia)).
  destruct (div_num a b mod div_den a b =? 0); cbn [coef].
  - match goal with |- context [strip_zeros ?f ?c ?e ?i] =>
      pose proof (strip_zeros_pos f c e i ltac:(lia)) end.
    lia.
  - destruct (_ mod 5 =? 0); lia.
Qed.

(** Padding the dividend scales both operands of the integer division. *)
Lemma div_operands_pad (s : bool) (c e k : Z) (b : Decimal) :
  0 < c -> 0 <= k -> 0 < coef b ->
  exists j, 0 <= j
    /\ div_num (mk s (c * 10 ^ k) (e - k)) b = div_num (mk s c e) b * 10 ^ j
    /\ div_den (mk s (c * 10 ^ k) (e - k)) b = div_den (mk s c e) b * 10 ^ j.
Proof.
  intros Hc Hk Hb. unfold div_num, div_den. cbn [coef].
  rewrite (ndigits_pad c k Hc Hk).
  set (sh := ndigits (coef b) - ndigits c + prec + 1).
  replace (ndigits (coef b) - (ndigits c + k) + prec + 1) with (sh - k) by (unfold sh; lia).
  destruct (Z.leb_spec 0 (sh - k)) as [H1|H1];
    destruct (Z.leb_spec 0 sh) as [H2|H2]; try lia.
  - exists 0. split; [lia|]. rewrite Z.pow_0_r, !Z.mul_1_r. split; [|reflexivity].
    rewrite <- Z.mul_assoc, <- Z.pow_add_r by lia. do 2 f_equal. lia.
  - exists (k - sh). split; [lia|]. split.
    + rewrite <- Z.mul_assoc, <- Z.pow_add_r by lia. do 2 f_equal. lia.
    + f_equal. f_equal. lia.
  - exists k. split; [lia|]. split; [reflexivity|].
    rewrite <- Z.mul_assoc, <- Z.pow_add_r by lia. do 2 f_equal. lia.
Qed.

Lemma div_raw_pad (s : bool) (c e k : Z) (b : Decimal) :
  0 < c -> 0 <= k -> 0 < coef b ->
  deq (div_raw (mk s (c * 10 ^ k) (e - k)) b) (div_raw (mk s c e) b).
Proof.
  intros Hc Hk Hb.
  destruct (div_operands_pad s c e k b Hc Hk Hb) as (j & Hj & En & Ed).
  pose proof (pow10_pos k Hk) as Pk. pose proof (pow10_pos j Hj) as Pj.
  assert (Hck : 0 < c * 10 ^ k) by (apply Z.mul_pos_pos; lia).
  pose proof (div_den_pos (mk s c e) b Hb) as Dp.
  assert (Eq : div_num (mk s (c * 10 ^ k) (e - k)) b
               / div_den (mk s (c * 10 ^ k) (e - k)) b
               = div_num (mk s c e) b / div_den (mk s c e) b).
  { rewrite En, Ed. apply Z.div_mul_cancel_r; lia. }
  assert (Er : div_num (mk s (c * 10 ^ k) (e - k)) b
               mod div_den (mk s (c * 10 ^ k) (e - k)) b
               = div_num (mk s c e) b mod div_den (mk s c e) b * 10 ^ j).
  { rewrite En, Ed. apply Z.mul_mod_distr_r; lia. }
  destruct (Z.eq_dec (div_num (mk s c e) b mod div_den (mk s c e) b) 0) as [R0|RN].
  - apply deq_value.
    rewrite (div_raw_exact (mk s c e) b) by (cbn [coef]; assumption).
    rewrite (div_raw_exact (mk s (c * 10 ^ k) (e - k)) b);
      [| cbn [coef]; assumption | assumption | rewrite Er, R0; reflexivity].
    rewrite value_mk_pad by assumption.
    replace (e - k + k) with e by lia. reflexivity.
  - assert (E : div_raw (mk s (c * 10 ^ k) (e - k)) b = div_raw (mk s c e) b).
    { unfold div_raw. rewrite Eq, Er.
      destruct (Z.eqb_spec (div_num (mk s c e) b mod div_den (mk s c e) b * 10 ^ j) 0)
        as [E0|_]; [exfalso; nia|].
      destruct (Z.eqb_spec (div_num (mk s c e) b mod div_den (mk s c e) b) 0)
        as [E0|_]; [contradiction|].
      cbn [sign coef expo]. rewrite (ndigits_pad c k Hc Hk).
      f_equal. lia. }
    rewrite E. apply deq_refl.
Qed.

(** The quotient respects numeric equality of the dividend. *)
Lemma quot_deq_l (a a' b : Decimal) :
  wf a -> wf a' -> wf b -> coef b <> 0 ->
  deq a a' -> deq (quot a b) (quot a' b).
Proof.
  intros Wa Wa' Wb Hb E.
  assert (Hb' : 0 < coef b) by (unfold wf in Wb; lia).
  assert (Half : forall x y, wf x -> wf y -> deq x y -> 0 < coef x ->
                             expo x <= expo y -> deq (quot x b) (quot y b)).
  { intros x y Wx Wy Exy Hx Hle.
    destruct (deq_pad x y Wx Wy Exy Hx Hle) as [Hs Hc].
    assert (Hy : 0 < coef y).
    { unfold wf in Wy. destruct (Z.eq_dec (coef y) 0) as [Z0|]; [|lia].
      rewrite Z0 in Hc. lia. }
    rewrite !quot_is_dfix by lia.
    apply dfix_deq; try (apply div_raw_wf; assumption).
    rewrite (mk_eta x), (mk_eta y), Hs, Hc.
    replace (expo x) with (expo y - (expo y - expo x)) at 2 by lia.
    apply div_raw_pad; [assumption | lia | assumption]. }
  destruct (Z.eq_dec (coef a) 0) as [Ha|Ha].
  - pose proof (deq_zero_coef a a' E Ha) as Ha'.
    apply deq_value. rewrite !quot_zero_l by assumption.
    rewrite !value_coef_zero by reflexivity. reflexivity.
  - assert (Ha' : coef a' <> 0).
    { intros Z0. apply Ha. apply (deq_zero_coef a' a); [apply deq_sym; exact E | exact Z0]. }
    unfold wf in Wa, Wa'.
    destruct (Z_le_gt_dec (expo a) (expo a')) as [Hle|Hgt].
    + apply Half; try assumption. lia.
    + apply deq_sym. apply Half; try assumption; try lia. apply deq_sym. exact E.
Qed.

End CongruenceOperations.

(** ** The order of the targets around the entry price *)

Section TargetOrder.

Lemma Qle_add_pos (x d : Q) : (0 < d)%Q -> (x <= x + d)%Q.
Proof.
  intros H. rewrite <- (Qplus_0_r x) at 1.
  apply Qplus_le_r. apply Qlt_le_weak. exact H.
Qed.

Lemma Qlt_add_pos (x d : Q) : (0 < d)%Q -> (x < x + d)%Q.
Proof.
  intros H. rewrite <- (Qplus_0_r x) at 1.
  apply Qplus_lt_r. exact H.
Qed.

Lemma Qle_sub_pos (x d : Q) : (0 < d)%Q -> (x - d <= x)%Q.
Proof.
  intros H. rewrite <- (Qplus_0_r x) at 2. unfold Qminus.
  apply Qplus_le_r. apply Qlt_le_weak.
  change 0%Q with (- 0)%Q. apply Qopp_lt_compat. exact H.
Qed.

Lemma Qlt_sub_pos (x d : Q) : (0 < d)%Q -> (x - d < x)%Q.
Proof.
  intros H. rewrite <- (Qplus_0_r x) at 2. unfold Qminus.
  apply Qplus_lt_r. change 0%Q with (- 0)%Q. apply Qopp_lt_compat. exact H.
Qed.

Lemma pos_value (d : Decimal) : ltb zero d = true -> (0 < value d)%Q.
Proof. intros H. apply ltb_value in H. rewrite value_zero in H. exact H. Qed.

(** Adding a positive change to a decimal of at most 50 digits never
    gives less; the result is strictly more when the sum is not rounded. *)
Lemma add_pos_order (entry c : Decimal) :
  wf entry -> ndigits (coef entry) <= prec -> ltb zero c = true ->
  leb entry (add entry c) = true
  /\ (representable (value entry + value c) -> ltb entry (add entry c) = true).
Proof.
  intros We He Hc. apply pos_value in Hc. split.
  - apply leb_value. apply add_ge_repr; try assumption. apply Qle_add_pos, Hc.
  - intros R. apply ltb_value. rewrite (add_value_exact entry c R).
    apply Qlt_add_pos, Hc.
Qed.

Lemma sub_pos_order (entry c : Decimal) :
  wf entry -> ndigits (coef entry) <= prec -> ltb zero c = true ->
  leb (sub entry c) entry = true
  /\ (representable (value entry - value c) -> ltb (sub entry c) entry = true).
Proof.
  intros We He Hc. apply pos_value in Hc. split.
  - apply leb_value. apply sub_le_repr; try assumption. apply Qle_sub_pos, Hc.
  - intros R. apply ltb_value. rewrite (sub_value_exact entry c R).
    apply Qlt_sub_pos, Hc.
Qed.

End TargetOrder.

(** C7 as stated fails: a price change below the last of the 50 digits of
    the entry price is absorbed by the rounding of the sum.  With entry 1,
    leverage 1 and percentages 1e-60 both changes are 1E-62, strictly
    positive, nothing is clamped, and both prices equal the entry price. *)
Lemma C7_change_absorbed_by_rounding :
  exists r,
    calculate_percentage_based_prices (of_int 1) LONG 1
      (mk false 1 (-60)) (mk false 1 (-60)) None = Return r
    /\ percentage_based_prices_unclamped (of_int 1) LONG 1
         (mk false 1 (-60)) (mk false 1 (-60)) None = Return r
    /\ ltb zero (price_change (of_int 1) (quot (mk false 1 (-60)) D100) 1) = true
    /\ ltb (of_int 1) (tp1_price r) = false
    /\ ltb (sl_price r) (of_int 1) = false.
Proof.
  eexists. split; [vm_compute; reflexivity|].
  repeat split; vm_compute; reflexivity.
Qed.

(** An entry price of more than 50 digits is itself rounded away: here the
    first target of a LONG call is below the entry price. *)
Lemma long_entry_price_target_below :
  exists r,
    calculate_percentage_based_prices
      (mk false (10 ^ 59 + 1) (-59)) LONG 1
      (mk false 1 (-70)) (mk false 1 (-70)) None = Return r
    /\ ltb zero (price_change (mk false (10 ^ 59 + 1) (-59))
                   (quot (mk false 1 (-70)) D100) 1) = true
    /\ ltb (tp1_price r) (mk false (10 ^ 59 + 1) (-59)) = true.
Proof.
  eexists. split; [vm_compute; reflexivity|].
  split; vm_compute; reflexivity.
Qed.

(** C7, amended.  For an entry price of at most 50 significant digits, a
    positive leverage, strictly positive price changes and prices the zero
    floor leaves unchanged, a LONG call returns
    [tp1_price >= entry_price >= sl_price] and a SHORT call
    [sl_price >= entry_price >= tp1_price]; each inequality is strict when
    the sum or difference it comes from is a decimal of at most 50 digits. *)
Theorem C7_targets_ordered :
  forall entry direction leverage tp1 sl tp2 r,
    wf entry -> ndigits (coef entry) <= prec -> 0 < leverage ->
    calculate_percentage_based_prices entry direction leverage tp1 sl tp2
    = Return r ->
    percentage_based_prices_unclamped entry direction leverage tp1 sl tp2
    = Return r ->
    let c1 := price_change entry (quot tp1 D100) leverage in
    let cs := price_change entry (quot sl D100) leverage in
    ltb zero c1 = true -> ltb zero cs = true ->
    (direction = LONG ->
     leb entry (tp1_price r) = true
     /\ leb (sl_price r) entry = true
     /\ (representable (value entry + value c1) ->
         ltb entry (tp1_price r) = true)
     /\ (representable (value entry - value cs) ->
         ltb (sl_price r) entry = true))
    /\
    (direction = SHORT ->
     leb entry (sl_price r) = true
     /\ leb (tp1_price r) entry = true
     /\ (representable (value entry + value cs) ->
         ltb entry (sl_price r) = true)
     /\ (representable (value entry - value c1) ->
         ltb (tp1_price r) entry = true)).
Proof.
  intros entry direction leverage tp1 sl tp2 r We He Hl _ Hp c1 cs H1 Hs.
  rewrite unclamped_closed_form in Hp by assumption. cbv zeta in Hp.
  fold c1 cs in Hp.
  destruct (add_pos_order entry c1 We He H1) as [A1 A1'].
  destruct (sub_pos_order entry c1 We He H1) as [S1 S1'].
  destruct (add_pos_order entry cs We He Hs) as [As As'].
  destruct (sub_pos_order entry cs We He Hs) as [Ss Ss'].
  split; intros ->; injection Hp as <-; cbn [tp1_price sl_price];
    repeat split; assumption.
Qed.

Lemma C7_targets_ordered_witness :
  leb (of_int 30000) (mk false 30150000 (-3)) = true
  /\ leb (mk false 29940000 (-3)) (of_int 30000) = true
  /\ ltb (of_int 30000) (mk false 30150000 (-3)) = true.
Proof.
  pose proof (C7_targets_ordered (of_int 30000) LONG 10
    (of_int 5) (of_int 2) None
    {| tp1_price := mk false 30150000 (-3);
       sl_price := mk false 29940000 (-3);
       tp2_price := mk false 3030000 (-2) |}
    ltac:(unfold wf; simpl; lia) ltac:(vm_compute; discriminate) ltac:(lia)
    ltac:(vm_compute; reflexivity) ltac:(vm_compute; reflexivity)
    ltac:(vm_compute; reflexivity) ltac:(vm_compute; reflexivity)) as [HL _].
  destruct (HL eq_refl) as (H1 & H2 & H3 & _).
  cbn [tp1_price sl_price] in H1, H2, H3.
  split; [exact H1|]. split; [exact H2|].
  apply H3. exists (mk false 30150 0).
  split; [unfold wf; simpl; lia|]. split; [vm_compute; discriminate|].
  vm_compute. reflexivity.
Defined.

(** ** The default of the second target *)

Section SecondTarget.









End SecondTarget.




(** * Further properties of the four calculations *)

(** ** Failures of the volatility calculation that reach the caller *)



(** ** Which error comes first *)



(** ** Signs of the position value and of the quantity *)

Section ResultSigns.





End ResultSigns.





(** ** The precision of what is returned *)

Section Precision.

Lemma add_ndigits (a b : Decimal) : ndigits (coef (add a b)) <= prec.
Proof. rewrite add_is_dfix. apply dfix_ndigits, add_exact_wf. Qed.

Lemma sub_ndigits (a b : Decimal) : ndigits (coef (sub a b)) <= prec.
Proof. unfold sub. apply add_ndigits. Qed.

Lemma max0_ndigits (x : Decimal) :
  ndigits (coef x) <= prec -> ndigits (coef (max0 x)) <= prec.
Proof.
  intros H. unfold max0. destruct (ltb x zero); [|exact H].
  vm_compute. discriminate.
Qed.

Lemma quot_ndigits (a b : Decimal) :
  wf a -> wf b -> coef b <> 0 -> ndigits (coef (quot a b)) <= prec.
Proof.
  intros Wa Wb Hb. destruct (Z.eq_dec (coef a) 0) as [Ha|Ha].
  - rewrite quot_zero_l by assumption. vm_compute. discriminate.
  - rewrite quot_is_dfix by assumption.
    apply dfix_ndigits, div_raw_wf; unfold wf in *; lia.
Qed.

End Precision.

(** X5.  Whatever the digits of the arguments, every price the two
    calculators return has at most 50 significant digits, and so have the
    position value and the quantity: the precision of line 10 bounds
    every result. *)
Theorem X5_results_within_precision :
  (forall entry direction leverage tp1 sl tp2 r,
      calculate_percentage_based_prices entry direction leverage tp1 sl tp2
      = Return r ->
      ndigits (coef (tp1_price r)) <= prec
      /\ ndigits (coef (sl_price r)) <= prec
      /\ ndigits (coef (tp2_price r)) <= prec)
  /\ (forall entry direction analysis_data msl mtp log r,
      calculate_atr_swing_prices entry direction analysis_data msl mtp
      = (log, Return r) ->
      ndigits (coef (tp_price r)) <= prec
      /\ ndigits (coef (atr_sl_price r)) <= prec)
  /\ (forall risk_amount leverage v,
      wf risk_amount ->
      calculate_position_size_usdt risk_amount leverage = Return v ->
      ndigits (coef v) <= prec)
  /\ (forall position_size_usdt price q,
      wf position_size_usdt -> wf price ->
      calculate_quantity_from_usdt position_size_usdt price = Return q ->
      ndigits (coef q) <= prec).
Proof.
  split; [|split; [|split]].
  - intros entry direction leverage tp1 sl tp2 r H.
    unfold calculate_percentage_based_prices in H.
    destruct (Z_le_gt_dec leverage 0) as [Hl|Hl].
    { rewrite unclamped_nonpositive_leverage in H by assumption. discriminate. }
    rewrite unclamped_closed_form in H by lia.
    destruct direction; cbn in H; [| |discriminate]; injection H as <-;
      cbn [tp1_price sl_price tp2_price];
      repeat split; apply max0_ndigits; first [apply add_ndigits | apply sub_ndigits].
  - intros entry direction d msl mtp log r H.
    unfold calculate_atr_swing_prices in H.
    assert (Z0 : ndigits (coef (tp_price zero_prices)) <= prec
                 /\ ndigits (coef (atr_sl_price zero_prices)) <= prec)
      by (split; vm_compute; discriminate).
    destruct (read_analysis d) as [[[atr sh] swl]|e|].
    + destruct direction; cbn [atr_swing_prices_unclamped] in H;
        injection H as _ <-; [| |exact Z0];
        cbn [tp_price atr_sl_price];
        split; apply max0_ndigits; first [apply add_ndigits | apply sub_ndigits].
    + destruct e; try discriminate; injection H as _ <-; exact Z0.
    + discriminate.
  - intros risk leverage v Wr H.
    destruct (position_size_outcome risk leverage) as [[_ [msg E]]|[_ E]];
      rewrite E in H; [discriminate|]. injection H as <-.
    rewrite mul_is_dfix. apply dfix_ndigits, mul_exact_wf; [exact Wr | apply of_int_wf].
  - intros size price q Ws Wp H.
    destruct (quantity_outcome size price) as [[_ [msg E]]|[L (q' & E & D)]];
      rewrite E in H; [discriminate|]. injection H as <-.
    assert (Hb : coef price <> 0).
    { rewrite leb_zero_r in L. apply Z.leb_gt in L.
      intros H0. apply sval_zero_iff in H0. lia. }
    replace q' with (quot size price) by (unfold quot; rewrite D; reflexivity).
    apply quot_ndigits; assumption.
Qed.

Lemma X5_results_within_precision_witness :
  ndigits (coef (mk false 33333333333333333333333333333333333333333333333333 (-50)))
  <= prec.
Proof.
  apply (proj2 (proj2 (proj2 X5_results_within_precision))
           (of_int 1) (of_int 3)
           (mk false 33333333333333333333333333333333333333333333333333 (-50))).
  - unfold wf; simpl; lia.
  - unfold wf; simpl; lia.
  - vm_compute. reflexivity.
Defined.

(** ** A computed result that reads as the degenerate one *)

(** X6.  When the three fields convert and both computed prices are
    negative, a LONG or SHORT call returns exactly the dictionary
    [{tp_price: 0, sl_price: 0}] and logs nothing: it is the very result
    of a call with an unrecognized direction, so a caller cannot tell a
    clamped computation from the degenerate path. *)
Theorem X6_clamped_result_is_degenerate :
  forall entry direction analysis_data msl mtp atr swing_high swing_low p,
    read_analysis analysis_data = Return (atr, swing_high, swing_low) ->
    atr_swing_prices_unclamped entry direction atr swing_high swing_low
      (multiplier msl D1_5) (multiplier mtp D2_0) = Some p ->
    ltb (tp_price p) zero = true -> ltb (atr_sl_price p) zero = true ->
    calculate_atr_swing_prices entry direction analysis_data msl mtp
    = ([], Return zero_prices)
    /\ calculate_atr_swing_prices entry direction analysis_data msl mtp
       = calculate_atr_swing_prices entry Unrecognized analysis_data msl mtp.
Proof.
  intros entry direction d msl mtp atr sh swl p Hr Hp Ht Hs.
  unfold calculate_atr_swing_prices. rewrite Hr.
  fold (multiplier msl D1_5). fold (multiplier mtp D2_0).
  rewrite Hp. cbn [atr_swing_prices_unclamped].
  unfold max0. rewrite Ht, Hs. split; reflexivity.
Qed.

Lemma X6_clamped_result_is_degenerate_witness :
  calculate_atr_swing_prices (of_int 1) SHORT
    [("atr", PyInt 10); ("swingHigh", PyInt (-100)); ("swingLow", PyInt 95)]
    None None
  = ([], Return zero_prices)
  /\ calculate_atr_swing_prices (of_int 1) SHORT
       [("atr", PyInt 10); ("swingHigh", PyInt (-100)); ("swingLow", PyInt 95)]
       None None
     = calculate_atr_swing_prices (of_int 1) Unrecognized
         [("atr", PyInt 10); ("swingHigh", PyInt (-100)); ("swingLow", PyInt 95)]
         None None.
Proof.
  apply (X6_clamped_result_is_degenerate (of_int 1) SHORT
           [("atr", PyInt 10); ("swingHigh", PyInt (-100)); ("swingLow", PyInt 95)]
           None None (of_int 10) (of_int (-100)) (of_int 95)
           {| tp_price := sub (of_int 1) (mul (of_int 10) D2_0);
              atr_sl_price := add (of_int (-100)) (mul (of_int 10) D1_5) |});
    vm_compute; reflexivity.
Defined.

(** ** What each price of the percentage calculation depends on *)

Section Dependence.

Lemma positive_is_truthy (t : Decimal) :
  ltb zero t = true -> truthy_and_positive (Some t) = true.
Proof.
  intros H. unfold truthy_and_positive. rewrite H, andb_true_r.
  rewrite ltb_zero_l in H. apply Z.ltb_lt in H.
  destruct (Z.eqb_spec (coef t) 0) as [E|_]; [|reflexivity].
  apply sval_zero_iff in E. lia.
Qed.

Lemma returns_positive_leverage entry direction leverage tp1 sl tp2 r :
  calculate_percentage_based_prices entry direction leverage tp1 sl tp2
  = Return r ->
  0 < leverage.
Proof.
  intros H. destruct (Z_le_gt_dec leverage 0) as [Hl|Hl]; [|lia].
  unfold calculate_percentage_based_prices in H.
  rewrite unclamped_nonpositive_leverage in H by assumption. discriminate.
Qed.

(** The returned prices in closed form. *)
Lemma percentage_prices_closed_form entry direction leverage tp1 sl tp2 r :
  calculate_percentage_based_prices entry direction leverage tp1 sl tp2
  = Return r ->
  let c1 := price_change entry (quot tp1 D100) leverage in
  let cs := price_change entry (quot sl D100) leverage in
  let c2 := price_change entry (tp2_factor tp1 tp2) leverage in
  (direction = LONG
   /\ r = {| tp1_price := max0 (add entry c1);
             sl_price := max0 (sub entry cs);
             tp2_price := max0 (add entry c2) |})
  \/ (direction = SHORT
      /\ r = {| tp1_price := max0 (sub entry c1);
                sl_price := max0 (add entry cs);
                tp2_price := max0 (sub entry c2) |}).
Proof.
  intros H. pose proof (returns_positive_leverage _ _ _ _ _ _ _ H) as Hl.
  unfold calculate_percentage_based_prices in H.
  rewrite unclamped_closed_form in H by assumption.
  destruct direction; cbn in H; [| |discriminate]; injection H as <-;
    [left | right]; split; reflexivity.
Qed.

End Dependence.

(** X7.  Each percentage moves only its own price: [tp1_price] does not
    change with the stop-loss or second-target percentage, [sl_price] does
    not change with either target percentage, and a positive
    [tp2_percentage] fixes [tp2_price] whatever the other two are. *)
Theorem X7_percentages_are_independent :
  forall entry direction leverage tp1 sl tp2 tp1' sl' tp2' r r',
    calculate_percentage_based_prices entry direction leverage tp1 sl tp2
    = Return r ->
    (calculate_percentage_based_prices entry direction leverage tp1 sl' tp2'
     = Return r' -> tp1_price r' = tp1_price r)
    /\ (calculate_percentage_based_prices entry direction leverage tp1' sl tp2'
        = Return r' -> sl_price r' = sl_price r)
    /\ (forall t, tp2 = Some t -> ltb zero t = true ->
        calculate_percentage_based_prices entry direction leverage tp1' sl' tp2
        = Return r' -> tp2_price r' = tp2_price r).
Proof.
  intros entry direction leverage tp1 sl tp2 tp1' sl' tp2' r r' H.
  apply percentage_prices_closed_form in H. cbv zeta in H.
  split; [|split].
  - intros H'. apply percentage_prices_closed_form in H'. cbv zeta in H'.
    destruct H as [[D ->]|[D ->]]; destruct H' as [[D' ->]|[D' ->]];
      try congruence; reflexivity.
  - intros H'. apply percentage_prices_closed_form in H'. cbv zeta in H'.
    destruct H as [[D ->]|[D ->]]; destruct H' as [[D' ->]|[D' ->]];
      try congruence; reflexivity.
  - intros t -> Ht H'. apply percentage_prices_closed_form in H'. cbv zeta in H'.
    assert (E : tp2_factor tp1' (Some t) = tp2_factor tp1 (Some t)).
    { unfold tp2_factor. rewrite (positive_is_truthy t Ht). reflexivity. }
    destruct H as [[D ->]|[D ->]]; destruct H' as [[D' ->]|[D' ->]];
      try congruence; cbn [tp2_price]; rewrite E; reflexivity.
Qed.

Lemma X7_percentages_are_independent_witness :
  tp1_price {| tp1_price := mk false 30150000 (-3);
               sl_price := mk false 2970000 (-2);
               tp2_price := mk false 3060000 (-2) |}
  = tp1_price {| tp1_price := mk false 30150000 (-3);
                 sl_price := mk false 29940000 (-3);
                 tp2_price := mk false 3030000 (-2) |}.
Proof.
  refine (proj1 (X7_percentages_are_independent (of_int 30000) LONG 10
                   (of_int 5) (of_int 2) None (of_int 5) (of_int 10)
                   (Some (of_int 20)) _ _ _) _);
    vm_compute; reflexivity.
Defined.

(** X8.  LONG and SHORT mirror each other: with the two percentages
    exchanged, the take-profit of one direction is the stop-loss of the
    other, digit for digit. *)
Theorem X8_directions_mirror :
  forall entry leverage a b tp2 tp2' rl rs,
    calculate_percentage_based_prices entry LONG leverage a b tp2 = Return rl ->
    calculate_percentage_based_prices entry SHORT leverage b a tp2' = Return rs ->
    tp1_price rs = sl_price rl /\ sl_price rs = tp1_price rl.
Proof.
  intros entry leverage a b tp2 tp2' rl rs Hl Hs.
  apply percentage_prices_closed_form in Hl, Hs. cbv zeta in Hl, Hs.
  destruct Hl as [[_ ->]|[D _]]; [|discriminate].
  destruct Hs as [[D _]|[_ ->]]; [discriminate|].
  split; reflexivity.
Qed.

Lemma X8_directions_mirror_witness :
  tp1_price {| tp1_price := mk false 29940000 (-3);
               sl_price := mk false 30150000 (-3);
               tp2_price := mk false 29880000 (-3) |}
  = sl_price {| tp1_price := mk false 30150000 (-3);
                sl_price := mk false 29940000 (-3);
                tp2_price := mk false 3030000 (-2) |}
  /\ sl_price {| tp1_price := mk false 29940000 (-3);
                 sl_price := mk false 30150000 (-3);
                 tp2_price := mk false 29880000 (-3) |}
     = tp1_price {| tp1_price := mk false 30150000 (-3);
                    sl_price := mk false 29940000 (-3);
                    tp2_price := mk false 3030000 (-2) |}.
Proof.
  apply (X8_directions_mirror (of_int 30000) 10 (of_int 5) (of_int 2) None None);
    vm_compute; reflexivity.
Defined.

(** ** Zero percentages and a zero entry price *)

Section ZeroCases.

Lemma mul_coef_zero_l (a b : Decimal) : coef a = 0 -> coef (mul a b) = 0.
Proof.
  intros H. rewrite mul_is_dfix, dfix_coef_zero; unfold mul_exact; cbn [coef];
    rewrite H; reflexivity.
Qed.


Lemma add_coef_zero (a b : Decimal) :
  coef a = 0 -> coef b = 0 -> coef (add a b) = 0.
Proof.
  intros Ha Hb. apply sval_zero_iff in Ha, Hb.
  rewrite add_is_dfix, dfix_coef_zero; unfold add_exact; cbn [coef];
    rewrite Ha, Hb; reflexivity.
Qed.

Lemma sub_coef_zero (a b : Decimal) :
  coef a = 0 -> coef b = 0 -> coef (sub a b) = 0.
Proof. intros Ha Hb. unfold sub. apply add_coef_zero; [exact Ha | exact Hb]. Qed.

Lemma max0_coef_zero (x : Decimal) : coef x = 0 -> coef (max0 x) = 0.
Proof. intros H. unfold max0. destruct (ltb x zero); [reflexivity | exact H]. Qed.





End ZeroCases.



(** X10.  An entry price of zero returns three prices that are zero,
    whatever the direction, the leverage and the percentages. *)
Theorem X10_zero_entry_gives_zero_prices :
  forall entry direction leverage tp1 sl tp2 r,
    coef entry = 0 ->
    calculate_percentage_based_prices entry direction leverage tp1 sl tp2
    = Return r ->
    coef (tp1_price r) = 0 /\ coef (sl_price r) = 0 /\ coef (tp2_price r) = 0.
Proof.
  intros entry direction leverage tp1 sl tp2 r Z0 H.
  apply percentage_prices_closed_form in H. cbv zeta in H.
  assert (C : forall f, coef (price_change entry f leverage) = 0)
    by (intros f; unfold price_change; apply mul_coef_zero_l; exact Z0).
  destruct H as [[_ ->]|[_ ->]]; cbn [tp1_price sl_price tp2_price];
    (split; [|split]); apply max0_coef_zero;
    first [apply add_coef_zero | apply sub_coef_zero];
    first [exact Z0 | apply C].
Qed.

Lemma X10_zero_entry_gives_zero_prices_witness :
  coef (mk false 0 (-3)) = 0 /\ coef (mk false 0 (-3)) = 0
  /\ coef (mk false 0 (-2)) = 0.
Proof.
  apply (X10_zero_entry_gives_zero_prices (of_int 0) LONG 10
           (of_int 5) (of_int 2) None
           {| tp1_price := mk false 0 (-3);
              sl_price := mk false 0 (-3);
              tp2_price := mk false 0 (-2) |});
    [reflexivity | vm_compute; reflexivity].
Defined.

(** ** The swing point a direction does not use *)

(** X11.  A LONG call does not look at the value of [swingHigh] and a
    SHORT call not at that of [swingLow]: two records that convert and
    agree on the other two fields give the same result.  Yet the unused
    field has to be present: a record without it gives the degenerate
    result in either direction. *)
Theorem X11_unused_swing_point :
  forall entry analysis_data analysis_data' msl mtp atr swing_high swing_low,
    read_analysis analysis_data = Return (atr, swing_high, swing_low) ->
    (forall swing_high',
        read_analysis analysis_data' = Return (atr, swing_high', swing_low) ->
        calculate_atr_swing_prices entry LONG analysis_data' msl mtp
        = calculate_atr_swing_prices entry LONG analysis_data msl mtp)
    /\ (forall swing_low',
        read_analysis analysis_data' = Return (atr, swing_high, swing_low') ->
        calculate_atr_swing_prices entry SHORT analysis_data' msl mtp
        = calculate_atr_swing_prices entry SHORT analysis_data msl mtp)
    /\ (forall direction,
        (exists a, read_field analysis_data' "atr" = Return a) ->
        (forall v, ~ In ("swingHigh", v) analysis_data') ->
        calculate_atr_swing_prices entry direction analysis_data' msl mtp
        = ([LogError (KeyError "swingHigh")], Return zero_prices)).
Proof.
  intros entry d d' msl mtp atr sh swl H. split; [|split].
  - intros sh' H'. unfold calculate_atr_swing_prices. rewrite H, H'. reflexivity.
  - intros swl' H'. unfold calculate_atr_swing_prices. rewrite H, H'. reflexivity.
  - intros direction [a Ha] Habs.
    apply atr_swing_caught; [|right; eexists; reflexivity].
    pose proof (read_analysis_cases d') as RC.
    rewrite Ha, (read_field_absent d' "swingHigh" Habs) in RC. exact RC.
Qed.

Lemma X11_unused_swing_point_witness :
  calculate_atr_swing_prices (of_int 100) LONG
    [("atr", PyStr "2.5"); ("swingHigh", PyInt 7); ("swingLow", PyInt 95)]
    None None
  = calculate_atr_swing_prices (of_int 100) LONG
      [("atr", PyStr "2.5"); ("swingHigh", PyStr "110"); ("swingLow", PyInt 95)]
      None None.
Proof.
  refine (proj1 (X11_unused_swing_point (of_int 100)
                   [("atr", PyStr "2.5"); ("swingHigh", PyStr "110");
                    ("swingLow", PyInt 95)]
                   [("atr", PyStr "2.5"); ("swingHigh", PyInt 7);
                    ("swingLow", PyInt 95)]
                   None None (mk false 25 (-1)) (of_int 110) (of_int 95) _)
            (of_int 7) _);
    vm_compute; reflexivity.
Defined.

(** ** Numerals that denote the same number *)

Section Numerals.

Lemma tp2_factor_deq (tp1 tp1' : Decimal) (tp2 : option Decimal) :
  wf tp1 -> wf tp1' -> deq tp1 tp1' ->
  deq (tp2_factor tp1 tp2) (tp2_factor tp1' tp2).
Proof.
  intros W W' E.
  assert (W100 : wf D100) by (unfold wf; simpl; lia).
  assert (W2 : wf D2) by (unfold wf; simpl; lia).
  assert (D : deq (mul (quot tp1 D100) D2) (mul (quot tp1' D100) D2)).
  { apply mul_deq; try assumption;
      try (apply quot_wf; [assumption | assumption | apply coef_D100_nonzero]).
    - apply quot_deq_l; try assumption. apply coef_D100_nonzero.
    - apply deq_refl. }
  unfold tp2_factor. destruct tp2 as [t|]; [|exact D].
  destruct (truthy_and_positive (Some t)); [apply deq_refl | exact D].
Qed.

Lemma price_change_deq_entry (entry entry' f f' : Decimal) (leverage : Z) :
  wf entry -> wf entry' -> wf f -> wf f' -> 0 < leverage ->
  deq entry entry' -> deq f f' ->
  deq (price_change entry f leverage) (price_change entry' f' leverage).
Proof.
  intros We We' Wf Wf' Hl Ee Ef. unfold price_change.
  pose proof (coef_of_int_nonzero leverage Hl) as HL.
  apply mul_deq; try assumption.
  - apply quot_wf; [assumption | apply of_int_wf | assumption].
  - apply quot_wf; [assumption | apply of_int_wf | assumption].
  - apply quot_deq_l; [assumption | assumption | apply of_int_wf | assumption | assumption].
Qed.

End Numerals.

(** X12.  The prices depend on the numbers passed, not on how they are
    written: entry prices and percentages that are numerically equal
    (30000 and 30000.00, 5 and 5.0) return numerically equal prices. *)
Theorem X12_prices_ignore_trailing_zeros :
  forall entry entry' direction leverage tp1 tp1' sl sl' tp2 r r',
    wf entry -> wf entry' -> wf tp1 -> wf tp1' -> wf sl -> wf sl' ->
    (forall t, tp2 = Some t -> wf t) ->
    deq entry entry' -> deq tp1 tp1' -> deq sl sl' ->
    calculate_percentage_based_prices entry direction leverage tp1 sl tp2
    = Return r ->
    calculate_percentage_based_prices entry' direction leverage tp1' sl' tp2
    = Return r' ->
    deq (tp1_price r) (tp1_price r')
    /\ deq (sl_price r) (sl_price r')
    /\ deq (tp2_price r) (tp2_price r').
Proof.
  intros entry entry' direction leverage tp1 tp1' sl sl' tp2 r r'
         We We' W1 W1' Ws Ws' W2 Ee E1 Es H H'.
  pose proof (returns_positive_leverage _ _ _ _ _ _ _ H) as Hl.
  apply percentage_prices_closed_form in H, H'. cbv zeta in H, H'.
  assert (W100 : wf D100) by (unfold wf; simpl; lia).
  assert (Wq : forall p, wf p -> wf (quot p D100))
    by (intros p Wp; apply quot_wf; [assumption | assumption | apply coef_D100_nonzero]).
  assert (C1 : deq (price_change entry (quot tp1 D100) leverage)
                   (price_change entry' (quot tp1' D100) leverage)).
  { apply price_change_deq_entry; auto.
    apply quot_deq_l; auto. apply coef_D100_nonzero. }
  assert (Cs : deq (price_change entry (quot sl D100) leverage)
                   (price_change entry' (quot sl' D100) leverage)).
  { apply price_change_deq_entry; auto.
    apply quot_deq_l; auto. apply coef_D100_nonzero. }
  assert (Wt : forall p, wf p -> wf (tp2_factor p tp2))
    by (intros p Wp; apply tp2_factor_wf; assumption).
  assert (C2 : deq (price_change entry (tp2_factor tp1 tp2) leverage)
                   (price_change entry' (tp2_factor tp1' tp2) leverage)).
  { apply price_change_deq_entry; auto. apply tp2_factor_deq; auto. }
  destruct H as [[D ->]|[D ->]]; destruct H' as [[D' ->]|[D' ->]];
    try congruence; cbn [tp1_price sl_price tp2_price];
    (split; [|split]); apply max0_deq;
    first [apply sub_deq | apply add_deq]; assumption.
Qed.

Lemma X12_prices_ignore_trailing_zeros_witness :
  deq (mk false 30150000 (-3)) (mk false 3015000000 (-5))
  /\ deq (mk false 29940000 (-3)) (mk false 2994000000 (-5))
  /\ deq (mk false 3030000 (-2)) (mk false 303000000 (-4)).
Proof.
  refine (X12_prices_ignore_trailing_zeros (of_int 30000) (mk false 3000000 (-2))
            LONG 10 (of_int 5) (mk false 50 (-1)) (of_int 2) (mk false 20 (-1))
            None
            {| tp1_price := mk false 30150000 (-3);
               sl_price := mk false 29940000 (-3);
               tp2_price := mk false 3030000 (-2) |}
            {| tp1_price := mk false 3015000000 (-5);
               sl_price := mk false 2994000000 (-5);
               tp2_price := mk false 303000000 (-4) |}
            _ _ _ _ _ _ _ _ _ _ _ _);
    try (unfold wf; simpl; lia); try (intros t X; discriminate X);
    vm_compute; reflexivity.
Defined.

(** ** A zero ATR *)



(** ** Quantity times price *)



(** ** How far the position value is from the exact product *)


